(** * BetEnder: the demand-driven pricing and refresh engine

    A shallow embedding of the hot-path services of the repository and the
    properties its specification states about them:

    - [Batching]: weight-aware chunking of the pools due for refresh
      ([createBatches], plan Phase 4);
    - [Scheduler]: failure isolation and the block-aware result processing
      ([refreshBatch], [processMulticallResults]);
    - [Tracker]: the alive set, its request counts and its reference counts
      ([handleTokenInterest], [incrementRefCount], [decrementRefCount]);
    - [Reclaimer]: the grace-period sweep of [GCManager.cleanupPools];
    - [Pricing]: [SpotPricingEngine.computeSpotPrice] over IEEE-754 doubles.

    JavaScript numbers that carry prices are binary64 floats ([float]);
    counters, block numbers, timestamps and weights are integers ([Z]), but
    for a [refCount] that may be missing or [NaN] ([Tracker.RefCount]);
    [Map]s are finite maps ([gmap]). *)

From Stdlib Require Import ZArith Floats Ascii String.
From stdpp Require Import gmap strings list fin_maps sorting.

#[local] Set Warnings "-inexact-float".

(** ** Weight-aware batching *)

Module Batching.
Local Open Scope Z_scope.

(** [dexType: "v2" | "v3"] of the pool registry. *)
Inductive DexType := v2 | v3.

Section CreateBatches.
(** [createBatches] reads nothing of a pool but its [dexType]. *)
Context {AlivePool : Type}.
Variable dexType : AlivePool → DexType.
Variable MAX_WEIGHT : Z.

(** [poolWeight = pool.dexType === "v2" ? 1 : 2] *)
Definition poolWeight (pool : AlivePool) : Z :=
  match dexType pool with v2 => 1 | v3 => 2 end.

(** The three loop variables [batches], [currentBatch], [currentWeight]. *)
Record Acc := mkAcc {
  batches : list (list AlivePool);
  currentBatch : list AlivePool;
  currentWeight : Z
}.

(** One iteration of [for (pool in pools)]. *)
Definition step (acc : Acc) (pool : AlivePool) : Acc :=
  let acc1 :=
    if currentWeight acc + poolWeight pool >? MAX_WEIGHT
    then mkAcc (batches acc ++ [currentBatch acc]) [] 0
    else acc in
  mkAcc (batches acc1) (currentBatch acc1 ++ [pool])
        (currentWeight acc1 + poolWeight pool).

Definition createBatches (pools : list AlivePool) : list (list AlivePool) :=
  let acc := fold_left step pools (mkAcc [] [] 0) in
  if (0 <? Z.of_nat (length (currentBatch acc)))
  then batches acc ++ [currentBatch acc]
  else batches acc.

(** Summed weight of one batch. *)
Definition batchWeight (b : list AlivePool) : Z :=
  foldr (λ p w, poolWeight p + w) 0 b.

Lemma poolWeight_pos pool : 0 < poolWeight pool.
Proof. unfold poolWeight. destruct (dexType pool); lia. Qed.

Lemma batchWeight_app b1 b2 :
  batchWeight (b1 ++ b2) = batchWeight b1 + batchWeight b2.
Proof. induction b1 as [|p b1 IH]; simpl; lia. Qed.

Lemma batchWeight_nonneg b : 0 ≤ batchWeight b.
Proof.
  induction b as [|p b IH]; simpl; [lia|].
  pose proof (poolWeight_pos p). lia.
Qed.

(** The loop invariant: what has been consumed so far is exactly the
    closed batches followed by the open one, the running weight is the
    weight of the open batch, every pool heavier than the ceiling sits
    alone, and, as long as no pool is heavier than the ceiling, closed
    batches are non-empty and within the ceiling. *)
Record Inv (seen : list AlivePool) (acc : Acc) : Prop := mkInv {
  inv_concat : concat (batches acc) ++ currentBatch acc = seen;
  inv_weight : currentWeight acc = batchWeight (currentBatch acc);
  inv_heavy : ∀ p, p ∈ seen → MAX_WEIGHT < poolWeight p →
              [p] ∈ batches acc ∨ currentBatch acc = [p];
  inv_bound : (∀ p, p ∈ seen → poolWeight p ≤ MAX_WEIGHT) →
              Forall (λ b, b ≠ [] ∧ batchWeight b ≤ MAX_WEIGHT) (batches acc)
              ∧ (currentBatch acc = [] ∨ batchWeight (currentBatch acc) ≤ MAX_WEIGHT)
}.

Lemma Inv_init : Inv [] (mkAcc [] [] 0).
Proof.
  split; simpl; try done.
  - intros p Hp. by apply elem_of_nil in Hp.
  - intros _. split; [apply Forall_nil_2 | by left].
Qed.

Lemma Inv_step seen acc pool :
  Inv seen acc → Inv (seen ++ [pool]) (step acc pool).
Proof.
  intros [Hc Hw Hh Hb]. unfold step.
  pose proof (poolWeight_pos pool) as Hpos.
  pose proof (batchWeight_nonneg (currentBatch acc)) as Hnn.
  destruct (Z.gtb_spec (currentWeight acc + poolWeight pool) MAX_WEIGHT)
    as [Hgt|Hle]; split; simpl.
  - rewrite concat_app. simpl. rewrite app_nil_r, Hc. done.
  - rewrite Z.add_0_l. lia.
  - intros p [Hp| ->%list_elem_of_singleton]%elem_of_app Hheavy; [|by right].
    left. apply elem_of_app.
    destruct (Hh p Hp Hheavy) as [?| ->]; [by left|right]. by apply list_elem_of_singleton.
  - intros Hall.
    destruct Hb as [Hcl Hop].
    { intros p Hp. apply Hall, elem_of_app. by left. }
    assert (poolWeight pool ≤ MAX_WEIGHT) as Hpw.
    { apply Hall, elem_of_app. right. by apply list_elem_of_singleton. }
    assert (currentBatch acc ≠ []) as Hne.
    { intros Hnil. rewrite Hw, Hnil in Hgt. simpl in Hgt. lia. }
    split; [|right; lia].
    apply Forall_app. split; [done|].
    apply Forall_cons_2; [|apply Forall_nil_2]. by destruct Hop.
  - by rewrite app_assoc, Hc.
  - rewrite batchWeight_app, Hw. simpl. lia.
  - intros p [Hp| ->%list_elem_of_singleton]%elem_of_app Hheavy.
    + destruct (Hh p Hp Hheavy) as [?|Hcur]; [by left|].
      rewrite Hw, Hcur in Hle. simpl in Hle. lia.
    + lia.
  - intros Hall.
    destruct Hb as [Hcl Hop].
    { intros p Hp. apply Hall, elem_of_app. by left. }
    split; [done|]. right. rewrite batchWeight_app. simpl. lia.
Qed.

Lemma Inv_fold pools seen acc :
  Inv seen acc → Inv (seen ++ pools) (fold_left step pools acc).
Proof.
  revert seen acc. induction pools as [|pool pools IH]; intros seen acc HI; simpl.
  - by rewrite app_nil_r.
  - replace (seen ++ pool :: pools) with ((seen ++ [pool]) ++ pools)
      by (by rewrite <- app_assoc).
    apply IH, Inv_step, HI.
Qed.

Lemma createBatches_cases pools :
  let acc := fold_left step pools (mkAcc [] [] 0) in
  (currentBatch acc = [] ∧ createBatches pools = batches acc) ∨
  (currentBatch acc ≠ [] ∧ createBatches pools = batches acc ++ [currentBatch acc]).
Proof.
  intros acc. unfold createBatches. fold acc.
  destruct (currentBatch acc) as [|p b] eqn:E; simpl; [by left|right].
  split; [done|]. destruct (Z.ltb_spec 0 (Z.pos (Pos.of_succ_nat (length b)))); [done|lia].
Qed.

(** C4. [createBatches] cuts the due pools into consecutive batches whose
    concatenation is the input, so no pool is dropped; a pool heavier than
    the ceiling ends up as a batch of its own; and when no pool is heavier
    than the ceiling every batch is non-empty and weighs at most the
    ceiling. *)
Theorem createBatches_weight_bound (pools : list AlivePool) :
  concat (createBatches pools) = pools
  ∧ (∀ p, p ∈ pools → MAX_WEIGHT < poolWeight p → [p] ∈ createBatches pools)
  ∧ ((∀ p, p ∈ pools → poolWeight p ≤ MAX_WEIGHT) →
     Forall (λ b, b ≠ [] ∧ batchWeight b ≤ MAX_WEIGHT) (createBatches pools)).
Proof.
  pose proof (Inv_fold pools [] _ Inv_init) as [Hc Hw Hh Hb]. simpl in *.
  destruct (createBatches_cases pools) as [[Hnil ->]|[Hne ->]]; simpl in *.
  - rewrite Hnil in *. rewrite app_nil_r in Hc.
    split; [done|]. split.
    + intros p Hp Hheavy. by destruct (Hh p Hp Hheavy).
    + intros Hall. by apply Hb.
  - split; [by rewrite concat_app; simpl; rewrite app_nil_r|]. split.
    + intros p Hp Hheavy. apply elem_of_app.
      destruct (Hh p Hp Hheavy) as [?| ->]; [by left|right].
      by apply list_elem_of_singleton.
    + intros Hall. destruct (Hb Hall) as [Hcl Hop].
      apply Forall_app. split; [done|].
      apply Forall_cons_2; [|apply Forall_nil_2]. by destruct Hop.
Qed.
End CreateBatches.

(** The scenario of the specification: one weight-2 pool and 49 weight-1
    pools under a ceiling of 50. *)
Definition scenarioPools : list DexType := v3 :: replicate 49 v2.

Lemma createBatches_weight_bound_witness :
  concat (createBatches id 50 scenarioPools) = scenarioPools
  ∧ Forall (λ b, b ≠ [] ∧ batchWeight id b ≤ 50) (createBatches id 50 scenarioPools)
  ∧ [v3] ∈ createBatches id 1 [v2; v3; v2].
Proof.
  destruct (createBatches_weight_bound id 50 scenarioPools) as (Hc & _ & Hb).
  destruct (createBatches_weight_bound id 1 [v2; v3; v2]) as (_ & Hh & _).
  split; [exact Hc|]. split.
  - apply Hb. intros p _. unfold poolWeight. destruct p; simpl; lia.
  - apply Hh; [|reflexivity]. apply elem_of_cons. right. apply elem_of_cons. by left.
Defined.

Example createBatches_scenario :
  map length (createBatches id 50 scenarioPools) = [49; 1]%nat.
Proof. vm_compute. reflexivity. Qed.

(** A pool heavier than the ceiling that comes first is kept as its own
    batch, after an empty batch that the overflow test closes. *)
Example createBatches_heavy_first :
  createBatches id 1 [v3; v2] = [[]; [v3]; [v2]].
Proof. vm_compute. reflexivity. Qed.

End Batching.

(** ** Shared data model *)

(** Milliseconds of [n] seconds, for the source's [now() + 5s] and the like. *)
Definition seconds (n : Z) : Z := (n * 1000)%Z.

(** [tier: "high" | "normal" | "low"] *)
Inductive Tier := high | normal | low.

(** The [AlivePool] record of the alive set, as the scheduler and
    [GCManager] read it. [refCount] is the counter that
    [GCManager.cleanupPools] tests; the scheduler's pseudocode keeps the
    [requestCount] of its pools in this field, which nothing there reads.
    The pool objects that [PoolController.handleTokenInterest] creates, with
    a [requestCount] and no [refCount], are [Tracker.Pool.t]. *)
Record AlivePool := mkAlivePool {
  address : string;
  chainId : Z;
  tier : Tier;
  nextRefresh : Z;
  lastBlockSeen : Z;
  lastPrice : float;
  refCount : Z;
  lastRequestTime : Z
}.

Definition set_nextRefresh (t : Z) (p : AlivePool) : AlivePool :=
  mkAlivePool (address p) (chainId p) (tier p) t (lastBlockSeen p)
              (lastPrice p) (refCount p) (lastRequestTime p).

Definition set_refCount (c : Z) (p : AlivePool) : AlivePool :=
  mkAlivePool (address p) (chainId p) (tier p) (nextRefresh p) (lastBlockSeen p)
              (lastPrice p) c (lastRequestTime p).

Definition set_lastRequestTime (t : Z) (p : AlivePool) : AlivePool :=
  mkAlivePool (address p) (chainId p) (tier p) (nextRefresh p) (lastBlockSeen p)
              (lastPrice p) (refCount p) t.

(** The scheduler's writes after a recomputed price:
    [lastPrice], [lastBlockSeen], [tier] and [nextRefresh]. *)
Definition set_refreshed (price : float) (block : Z) (t : Tier) (due : Z)
    (p : AlivePool) : AlivePool :=
  mkAlivePool (address p) (chainId p) t due block price (refCount p)
              (lastRequestTime p).

(** The versioned cache entry of plan Phase 6. The source types [tickId] as a
    string "incremented per refresh cycle"; only the identity of a tick
    matters here, so it is kept as the number it renders. *)
Record CacheEntry := mkCacheEntry {
  ce_poolAddress : string;
  ce_price : float;
  ce_liquidity : Z;
  ce_blockNumber : Z;
  ce_tickId : N;
  ce_timestamp : Z;
  ce_ttl : Z
}.

Definition set_ttl (t : Z) (c : CacheEntry) : CacheEntry :=
  mkCacheEntry (ce_poolAddress c) (ce_price c) (ce_liquidity c)
               (ce_blockNumber c) (ce_tickId c) (ce_timestamp c) t.

(** ** Batching scheduler: result processing *)

Module Scheduler.
Local Open Scope Z_scope.

(** One per-pool outcome of a multicall. *)
Record MulticallResult := mkResult {
  poolAddress : string;
  success : bool;
  blockNumber : Z;
  liquidity : Z
}.

(** The mutable state the hot path shares: the alive set
    ([Map<PoolAddress, AlivePool>]), the cache, the global [currentTickId]
    and the number of ticks issued so far. *)
Record Engine := mkEngine {
  aliveSet : gmap string AlivePool;
  cache : gmap string CacheEntry;
  currentTickId : N;
  ticksIssued : N
}.

Definition set_aliveSet (a : gmap string AlivePool) (e : Engine) : Engine :=
  mkEngine a (cache e) (currentTickId e) (ticksIssued e).

Definition set_cache (c : gmap string CacheEntry) (e : Engine) : Engine :=
  mkEngine (aliveSet e) c (currentTickId e) (ticksIssued e).

(** Modelled from the spec: [generateTickId], which the source calls but
    does not define. The tick is "a monotonically increasing identifier":
    each call issues the successor of the last tick issued. *)
Definition generateTickId (e : Engine) : N * Engine :=
  let t := (ticksIssued e + 1)%N in
  (t, mkEngine (aliveSet e) (cache e) (currentTickId e) t).

(** What a call leaves behind: it ran to its end, or a [TypeError] cut it
    short; either way the writes made so far stay. *)
Inductive Outcome :=
  | Done (e : Engine)
  | Threw (e : Engine).

Definition stateOf (o : Outcome) : Engine :=
  match o with Done e | Threw e => e end.

(** What [multicall.execute(batch, provider)] comes back with. *)
Inductive Transport :=
  | TransportError
  | Results (results : list MulticallResult).

Section ResultProcessing.
(** [computePrice(result)], the pricing math the scheduler delegates to. *)
Variable computePrice : MulticallResult → float.
(** The delay after which a failed pool is due again. *)
Variable RETRY_DELAY : Z.

(** The entry that [cache.set(result.poolAddress, {...})] stores. *)
Definition freshEntry (now : Z) (tick : N) (result : MulticallResult) : CacheEntry :=
  mkCacheEntry (poolAddress result) (computePrice result) (liquidity result)
               (blockNumber result) tick now (now + seconds 30).

(** [priceDelta > 0.05 → high, +5s; > 0.001 → normal, +10s; else low, +30s] *)
Definition tierOf (priceDelta : float) : Tier * Z :=
  if (0.05 <? priceDelta)%float then (high, seconds 5)
  else if (0.001 <? priceDelta)%float then (normal, seconds 10)
  else (low, seconds 30).

(** The body of [for (result in results)] in [processMulticallResults]. *)
Definition processResult (now : Z) (e : Engine) (result : MulticallResult) : Outcome :=
  match aliveSet e !! poolAddress result with
  | None => Threw e
  | Some pool =>
    if blockNumber result =? lastBlockSeen pool then
      match cache e !! poolAddress result with
      | None => Threw e
      | Some entry =>
        Done (set_cache (<[poolAddress result := set_ttl (now + seconds 30) entry]> (cache e)) e)
      end
    else
      let price := computePrice result in
      let cache' := <[poolAddress result := freshEntry now (currentTickId e) result]> (cache e) in
      let priceDelta := (PrimFloat.abs (price - lastPrice pool) / lastPrice pool)%float in
      let '(t, delay) := tierOf priceDelta in
      let pool' := set_refreshed price (blockNumber result) t (now + delay) pool in
      Done (mkEngine (<[poolAddress result := pool']> (aliveSet e)) cache'
                     (currentTickId e) (ticksIssued e))
  end.

Fixpoint processResults (now : Z) (results : list MulticallResult) (e : Engine) : Outcome :=
  match results with
  | [] => Done e
  | result :: rest =>
    match processResult now e result with
    | Done e' => processResults now rest e'
    | Threw e' => Threw e'
    end
  end.

(** [processMulticallResults]: a fresh tick, then the loop. *)
Definition processMulticallResults (now : Z) (results : list MulticallResult)
    (e : Engine) : Outcome :=
  let '(tick, e1) := generateTickId e in
  processResults now results
    (mkEngine (aliveSet e1) (cache e1) tick (ticksIssued e1)).

(** One scheduling cycle hands the results of each of its batches to
    [processMulticallResults], one call per batch. *)
Definition processCycle (now : Z) (batchResults : list (list MulticallResult))
    (e : Engine) : Engine :=
  fold_left (λ e results, stateOf (processMulticallResults now results e))
            batchResults e.

(** Modelled from the spec: [updateCache(result)], called but not defined in
    the source; it stores the result's entry under the pool's address, as
    the [cache.set] of [processMulticallResults] does. *)
Definition updateCache (now : Z) (result : MulticallResult) (e : Engine) : Engine :=
  set_cache (<[poolAddress result := freshEntry now (currentTickId e) result]> (cache e)) e.

(** Modelled from the spec: [scheduleRetry(poolAddress)], called but not
    defined in the source; it "marks the pool due again after a short retry
    delay" and touches nothing else. *)
Definition scheduleRetry (now : Z) (poolAddress : string) (e : Engine) : Engine :=
  set_aliveSet (alter (set_nextRefresh (now + RETRY_DELAY)) poolAddress (aliveSet e)) e.

(** The failure-isolation [try]/[catch] around one batch. *)
Definition refreshBatch (now : Z) (batch : list AlivePool) (outcome : Transport)
    (e : Engine) : Engine :=
  match outcome with
  | Results results =>
    fold_left (λ e result,
                 if success result then updateCache now result e
                 else scheduleRetry now (poolAddress result) e)
              results e
  | TransportError =>
    fold_left (λ e pool, scheduleRetry now (address pool) e) batch e
  end.

(** *** Failure isolation *)

Lemma cache_scheduleRetry now a e : cache (scheduleRetry now a e) = cache e.
Proof. done. Qed.

Lemma aliveSet_updateCache now r e : aliveSet (updateCache now r e) = aliveSet e.
Proof. done. Qed.

Lemma set_nextRefresh_idemp t (p : AlivePool) :
  set_nextRefresh t (set_nextRefresh t p) = set_nextRefresh t p.
Proof. done. Qed.

(** The per-result branch of the [try] block. *)
Definition onResult (now : Z) (e : Engine) (result : MulticallResult) : Engine :=
  if success result then updateCache now result e
  else scheduleRetry now (poolAddress result) e.

Lemma onResult_cache_other now e r addr :
  (poolAddress r = addr → success r = false) →
  cache (onResult now e r) !! addr = cache e !! addr.
Proof.
  intros H. unfold onResult. destruct (success r) eqn:Hs; [|done].
  unfold updateCache. simpl. apply lookup_insert_ne.
  intros Heq. specialize (H Heq). congruence.
Qed.

Lemma results_cache_untouched now rs e addr :
  (∀ r, r ∈ rs → poolAddress r = addr → success r = false) →
  cache (fold_left (onResult now) rs e) !! addr = cache e !! addr.
Proof.
  revert e. induction rs as [|r rs IH]; intros e H; simpl; [done|].
  rewrite IH.
  - apply onResult_cache_other. apply H. by left.
  - intros r' Hr'. apply H. by right.
Qed.

(** A pool is either left as it was or marked due at [now + RETRY_DELAY]. *)
Lemma results_aliveSet now rs e addr :
  aliveSet (fold_left (onResult now) rs e) !! addr = aliveSet e !! addr
  ∨ aliveSet (fold_left (onResult now) rs e) !! addr
    = set_nextRefresh (now + RETRY_DELAY) <$> aliveSet e !! addr.
Proof.
  revert e. induction rs as [|r rs IH]; intros e; simpl; [by left|].
  assert (aliveSet (onResult now e r) !! addr = aliveSet e !! addr
          ∨ aliveSet (onResult now e r) !! addr
            = set_nextRefresh (now + RETRY_DELAY) <$> aliveSet e !! addr) as Hstep.
  { unfold onResult. destruct (success r); [by left|].
    unfold scheduleRetry. simpl.
    destruct (decide (poolAddress r = addr)) as [->|Hne].
    - right. by rewrite lookup_alter_eq.
    - left. by rewrite lookup_alter_ne. }
  destruct (IH (onResult now e r)) as [H|H]; rewrite H.
  - done.
  - right. destruct Hstep as [->| ->]; [done|].
    by destruct (aliveSet e !! addr).
Qed.

Lemma results_failed_rescheduled now rs e addr :
  (∃ r, r ∈ rs ∧ poolAddress r = addr ∧ success r = false) →
  aliveSet (fold_left (onResult now) rs e) !! addr
  = set_nextRefresh (now + RETRY_DELAY) <$> aliveSet e !! addr.
Proof.
  revert e. induction rs as [|r rs IH]; intros e (r' & Hin & Ha & Hs).
  { by apply elem_of_nil in Hin. }
  simpl. apply elem_of_cons in Hin as [->|Hin].
  - assert (aliveSet (onResult now e r) !! addr
            = set_nextRefresh (now + RETRY_DELAY) <$> aliveSet e !! addr) as Hstep.
    { unfold onResult. rewrite Hs. unfold scheduleRetry. simpl.
      by rewrite Ha, lookup_alter_eq. }
    destruct (results_aliveSet now rs (onResult now e r) addr) as [H|H];
      rewrite H, Hstep; [done|].
    by destruct (aliveSet e !! addr).
  - rewrite IH by eauto.
    destruct (results_aliveSet now [r] e addr) as [H|H]; simpl in H; rewrite H;
      [done|]. by destruct (aliveSet e !! addr).
Qed.

Lemma transport_error_state now batch e :
  let e' := fold_left (λ e pool, scheduleRetry now (address pool) e) batch e in
  cache e' = cache e
  ∧ ∀ addr,
      aliveSet e' !! addr
      = if bool_decide (Exists (λ pool, address pool = addr) batch)
        then set_nextRefresh (now + RETRY_DELAY) <$> aliveSet e !! addr
        else aliveSet e !! addr.
Proof.
  revert e. induction batch as [|pool batch IH]; intros e; cbn [fold_left].
  - split; [done|]. intros addr. rewrite bool_decide_eq_false_2; [done|].
    by intros ?%Exists_nil.
  - destruct (IH (scheduleRetry now (address pool) e)) as [Hc Ha].
    split; [by rewrite Hc|]. intros addr. rewrite Ha.
    unfold scheduleRetry at 1 2. cbn [aliveSet set_aliveSet].
    destruct (decide (address pool = addr)) as [Heq|Hne].
    + rewrite (bool_decide_eq_true_2 (Exists _ (pool :: batch)))
        by (by apply Exists_cons_hd).
      rewrite Heq, lookup_alter_eq.
      case_bool_decide; [|done]. by destruct (aliveSet e !! addr).
    + rewrite lookup_alter_ne by done.
      case_bool_decide as H1; case_bool_decide as H2; try done.
      * exfalso. apply H2. by apply Exists_cons_tl.
      * exfalso. apply H1. by apply Exists_cons in H2 as [?|?].
Qed.

(** C1. Around one batch: when the transport fails the cache is left as it
    was and every pool of the batch is marked due at [now + RETRY_DELAY];
    when the batch comes back, a pool none of whose results succeeded keeps
    its cache entry, so an entry that changed has a successful result, and
    a pool with a failed result is marked due at [now + RETRY_DELAY]. *)
Theorem refreshBatch_failure_isolation (now : Z) (batch : list AlivePool)
    (outcome : Transport) (e : Engine) (addr : string) :
  let e' := refreshBatch now batch outcome e in
  (outcome = TransportError →
     cache e' = cache e
     ∧ ∀ pool, pool ∈ batch →
         aliveSet e' !! address pool
         = set_nextRefresh (now + RETRY_DELAY) <$> aliveSet e !! address pool)
  ∧ (∀ results, outcome = Results results →
       ((∀ r, r ∈ results → poolAddress r = addr → success r = false) →
          cache e' !! addr = cache e !! addr)
       ∧ (cache e' !! addr ≠ cache e !! addr →
          ∃ r, r ∈ results ∧ poolAddress r = addr ∧ success r = true)
       ∧ ((∃ r, r ∈ results ∧ poolAddress r = addr ∧ success r = false) →
          aliveSet e' !! addr
          = set_nextRefresh (now + RETRY_DELAY) <$> aliveSet e !! addr)).
Proof.
  intros e'. split.
  - intros ->. subst e'. simpl.
    destruct (transport_error_state now batch e) as [Hc Ha].
    split; [done|]. intros pool Hpool. rewrite Ha.
    rewrite bool_decide_eq_true_2; [done|]. apply Exists_exists. by exists pool.
  - intros results ->. subst e'. simpl.
    change (λ e0 result, if success result then updateCache now result e0
                         else scheduleRetry now (poolAddress result) e0)
      with (onResult now).
    split; [apply results_cache_untouched|]. split; [|apply results_failed_rescheduled].
    intros Hchanged.
    destruct (decide (Exists (λ r, poolAddress r = addr ∧ success r = true) results))
      as [Hex|Hnex].
    + apply Exists_exists in Hex as (r & Hr & Ha & Hs). eauto.
    + exfalso. apply Hchanged. apply results_cache_untouched.
      intros r Hr Ha. destruct (success r) eqn:Hs; [|done].
      exfalso. apply Hnex, Exists_exists. eauto.
Qed.

(** *** Block-aware processing *)

(** C2. For a tracked pool, a result whose block number differs from the
    pool's last-seen block — higher or lower, there is no ordering test —
    replaces the cache entry, and the stored block number becomes the
    result's; a result whose block number equals it only extends the
    entry's expiry: block number, price, tick and timestamp stay, and so
    does the alive set. *)
Theorem processResult_block_discipline (now : Z) (e : Engine)
    (r : MulticallResult) (pool : AlivePool) :
  aliveSet e !! poolAddress r = Some pool →
  (blockNumber r ≠ lastBlockSeen pool →
     ∃ e', processResult now e r = Done e'
           ∧ cache e' !! poolAddress r = Some (freshEntry now (currentTickId e) r)
           ∧ ce_blockNumber <$> cache e' !! poolAddress r = Some (blockNumber r)
           ∧ lastBlockSeen <$> aliveSet e' !! poolAddress r = Some (blockNumber r))
  ∧ (blockNumber r = lastBlockSeen pool →
     ∀ entry, cache e !! poolAddress r = Some entry →
       ∃ e' entry', processResult now e r = Done e'
                    ∧ cache e' !! poolAddress r = Some entry'
                    ∧ ce_blockNumber entry' = ce_blockNumber entry
                    ∧ ce_price entry' = ce_price entry
                    ∧ ce_tickId entry' = ce_tickId entry
                    ∧ ce_timestamp entry' = ce_timestamp entry
                    ∧ ce_ttl entry' = now + seconds 30
                    ∧ aliveSet e' = aliveSet e).
Proof.
  intros Hpool. unfold processResult. rewrite Hpool. split.
  - intros Hne. apply Z.eqb_neq in Hne. rewrite Hne.
    destruct (tierOf _) as [t delay]. eexists. split; [done|]. simpl.
    rewrite !lookup_insert_eq. done.
  - intros Heq entry Hentry. apply Z.eqb_eq in Heq. rewrite Heq, Hentry.
    eexists _, _. split; [done|]. simpl. rewrite lookup_insert_eq. done.
Qed.

(** A pool that is not tracked, or an unchanged block with no entry to
    extend, cuts the call short and writes nothing. *)
Lemma processResult_threw now e r e' :
  processResult now e r = Threw e' → e' = e.
Proof.
  unfold processResult. destruct (aliveSet e !! poolAddress r) as [pool|]; [|congruence].
  destruct (blockNumber r =? lastBlockSeen pool).
  - destruct (cache e !! poolAddress r); congruence.
  - destruct (tierOf _). congruence.
Qed.
End ResultProcessing.

(** *** Concrete runs *)

Definition poolA : AlivePool := mkAlivePool "0xaaa" 1 high 0 10 1%float 1 0.
Definition poolB : AlivePool := mkAlivePool "0xbbb" 1 high 0 10 1%float 1 0.

Definition entryAt (a : string) (block : Z) : CacheEntry :=
  mkCacheEntry a 1%float 0 block 0 0 (seconds 30).

(** Two tracked pools, both cached at block 10. *)
Definition engine0 : Engine :=
  mkEngine (<["0xaaa" := poolA]> (<["0xbbb" := poolB]> ∅))
           (<["0xaaa" := entryAt "0xaaa" 10]> (<["0xbbb" := entryAt "0xbbb" 10]> ∅))
           0 0.

Definition fixedPrice (_ : MulticallResult) : float := 2%float.

Lemma refreshBatch_failure_isolation_witness :
  cache (refreshBatch fixedPrice 500 1000 [poolA] TransportError engine0) = cache engine0
  ∧ cache (refreshBatch fixedPrice 500 1000 [poolA; poolB]
             (Results [mkResult "0xaaa" false 11 0; mkResult "0xbbb" true 11 0]) engine0)
      !! "0xaaa" = cache engine0 !! "0xaaa"
  ∧ aliveSet (refreshBatch fixedPrice 500 1000 [poolA; poolB]
                (Results [mkResult "0xaaa" false 11 0; mkResult "0xbbb" true 11 0]) engine0)
      !! "0xaaa" = set_nextRefresh 1500 <$> aliveSet engine0 !! "0xaaa".
Proof.
  split.
  - apply (refreshBatch_failure_isolation fixedPrice 500 1000 [poolA] TransportError
             engine0 "0xaaa"). reflexivity.
  - pose proof (refreshBatch_failure_isolation fixedPrice 500 1000 [poolA; poolB]
             (Results [mkResult "0xaaa" false 11 0; mkResult "0xbbb" true 11 0])
             engine0 "0xaaa") as [_ H].
    destruct (H _ eq_refl) as (Hkeep & _ & Hretry). split.
    + apply Hkeep. intros r Hr Ha.
      apply elem_of_cons in Hr as [->|Hr]; [reflexivity|].
      apply list_elem_of_singleton in Hr as ->. simpl in Ha. discriminate.
    + apply Hretry. eexists. split; [by left|]. split; reflexivity.
Defined.

Lemma processResult_block_discipline_witness :
  (∃ e', processResult fixedPrice 1000 engine0 (mkResult "0xaaa" true 5 0) = Done e'
         ∧ ce_blockNumber <$> cache e' !! "0xaaa" = Some 5)
  ∧ (∃ e', processResult fixedPrice 1000 engine0 (mkResult "0xaaa" true 10 0) = Done e'
           ∧ ce_blockNumber <$> cache e' !! "0xaaa" = Some 10).
Proof.
  destruct (processResult_block_discipline fixedPrice 1000 engine0
              (mkResult "0xaaa" true 5 0) poolA) as [Hdiff _]; [reflexivity|].
  destruct (processResult_block_discipline fixedPrice 1000 engine0
              (mkResult "0xaaa" true 10 0) poolA) as [_ Hsame]; [reflexivity|].
  split.
  - destruct Hdiff as (e' & He' & _ & Hb & _); [simpl; lia|]. by exists e'.
  - destruct (Hsame eq_refl (entryAt "0xaaa" 10)) as (e' & entry' & He' & Hc & Hb & _);
      [reflexivity|].
    exists e'. split; [done|]. simpl in Hc. rewrite Hc. simpl. by rewrite Hb.
Defined.

(** C2, as stated, fails: a late result observed at block 5 overwrites the
    entry stored at block 10, so the stored block number decreases. *)
Lemma processMulticallResults_block_decreases :
  ¬ (∀ entry entry',
       cache engine0 !! "0xaaa" = Some entry →
       cache (stateOf (processMulticallResults fixedPrice 1000
                         [mkResult "0xaaa" true 5 0] engine0)) !! "0xaaa" = Some entry' →
       ce_blockNumber entry ≤ ce_blockNumber entry').
Proof.
  intros H.
  specialize (H (entryAt "0xaaa" 10)
                (freshEntry fixedPrice 1000 1 (mkResult "0xaaa" true 5 0))
                eq_refl eq_refl).
  simpl in H. lia.
Qed.

(** C3. In one cycle whose two batches come back separately, each call of
    [processMulticallResults] issues its own tick: the pool served by the
    first batch is stored under tick 1, the pool served by the second under
    tick 2. *)
Theorem processCycle_ticks_differ :
  let e' := processCycle fixedPrice 1000
              [[mkResult "0xaaa" true 11 0]; [mkResult "0xbbb" true 11 0]] engine0 in
  ce_tickId <$> cache e' !! "0xaaa" = Some 1%N
  ∧ ce_tickId <$> cache e' !! "0xbbb" = Some 2%N.
Proof. vm_compute. split; reflexivity. Qed.

End Scheduler.

(** ** Interest tracker *)

(** A pool is identified by its network and address. The source renders the
    pair as the string [`${chainId}:${poolAddress}`] and takes it apart with
    [split(':')]; pool addresses are hexadecimal and hold no colon, so the
    rendering is one-to-one and is kept here as the pair itself. *)
Abbreviation PoolKey := (Z * string)%type.

Definition poolKey (chainId : Z) (poolAddress : string) : PoolKey :=
  (chainId, poolAddress).

(** The key under which a [PoolRef] belongs, read off its own fields. *)
Definition keyOf (p : AlivePool) : PoolKey := poolKey (chainId p) (address p).

(** Every [PoolRef] sits under the key its own fields spell. *)
Definition WellKeyed (a : gmap PoolKey AlivePool) : Prop :=
  ∀ k p, a !! k = Some p → keyOf p = k.

(** ** The registry's pricing routes (cold-path output, read-only here) *)

Module Registry.

(** One entry of [pricingRoutes]: the pool to cross and the base it reaches. *)
Record PricingRoute := mkRoute {
  pool : string;
  base : string
}.

(** [poolRegistry.pricingRoutes]: the routes of each token. *)
Record PoolRegistry := mkPoolRegistry {
  pricingRoutes : gmap string (list PricingRoute)
}.

End Registry.

Module Tracker.
Import Registry.
Local Open Scope Z_scope.

(** A token as [handleTokenInterest] receives it. *)
Record Token := mkToken {
  tokenAddress : string;
  pricingPools : list PricingRoute
}.

(** What reading [pool.refCount] gives: [undefined] on a pool object that was
    given no such property, else a number, which may be [NaN]. *)
Inductive RefCount := undefined | NaN | number (n : Z).

(** [pool.refCount++]: [undefined] converts to [NaN], and [NaN + 1] is [NaN]. *)
Definition plusOne (c : RefCount) : RefCount :=
  match c with
  | number n => number (n + 1)
  | undefined | NaN => NaN
  end.

(** [Math.max(0, pool.refCount - 1)]: [Math.max] of a [NaN] is [NaN]. *)
Definition minusOneAtLeast0 (c : RefCount) : RefCount :=
  match c with
  | number n => number (Z.max 0 (n - 1))
  | undefined | NaN => NaN
  end.

(** The pool objects of [PoolController.aliveSet]: the properties that
    [handleTokenInterest] writes, in its order, and [refCount], which
    [incrementRefCount] and [decrementRefCount] read and write and
    [handleTokenInterest] does not. *)
Module Pool.
Record t := mk {
  address : string;
  chainId : Z;
  tier : Tier;
  nextRefresh : Z;
  lastBlockSeen : Z;
  lastPrice : float;
  requestCount : Z;
  lastRequestTime : Z;
  refCount : RefCount
}.

Definition set_lastRequestTime (time : Z) (p : t) : t :=
  mk (address p) (chainId p) (tier p) (nextRefresh p) (lastBlockSeen p) (lastPrice p)
     (requestCount p) time (refCount p).

Definition set_requestCount (c : Z) (p : t) : t :=
  mk (address p) (chainId p) (tier p) (nextRefresh p) (lastBlockSeen p) (lastPrice p)
     c (lastRequestTime p) (refCount p).

Definition set_refCount (c : RefCount) (p : t) : t :=
  mk (address p) (chainId p) (tier p) (nextRefresh p) (lastBlockSeen p) (lastPrice p)
     (requestCount p) (lastRequestTime p) c.

(** The key under which a pool belongs, read off its own fields. *)
Definition keyOf (p : t) : PoolKey := poolKey (chainId p) (address p).
End Pool.

(** The body of the inner loop of [handleTokenInterest]: a tracked pool has
    its liveness extended and its [requestCount] incremented, a new pool
    enters at tier [high], due in five seconds, with [requestCount] 1; in
    neither case is [refCount] written. *)
Definition touch (now chainId : Z) (aliveSet : gmap PoolKey Pool.t)
    (route : PricingRoute) : gmap PoolKey Pool.t :=
  let poolAddress := pool route in
  let k := poolKey chainId poolAddress in
  match aliveSet !! k with
  | Some p =>
    <[k := Pool.set_requestCount (Pool.requestCount p + 1)
             (Pool.set_lastRequestTime now p)]> aliveSet
  | None =>
    <[k := Pool.mk poolAddress chainId high (now + 5000) 0 0%float 1 now undefined]>
      aliveSet
  end.

(** [PoolController.handleTokenInterest], as the scenario analysis quotes it
    from [PoolController.ts]: every route of every token is visited, in
    order. *)
Definition handleTokenInterest (now : Z) (tokens : list Token) (chainId : Z)
    (aliveSet : gmap PoolKey Pool.t) : gmap PoolKey Pool.t :=
  fold_left (λ a token, fold_left (touch now chainId) (pricingPools token) a)
            tokens aliveSet.

(** [incrementRefCount] and [decrementRefCount] of plan Phase 3. *)
Definition incrementRefCount (poolAddress : string) (chainId : Z)
    (aliveSet : gmap PoolKey Pool.t) : gmap PoolKey Pool.t :=
  let k := poolKey chainId poolAddress in
  match aliveSet !! k with
  | Some p => <[k := Pool.set_refCount (plusOne (Pool.refCount p)) p]> aliveSet
  | None => aliveSet
  end.

Definition decrementRefCount (poolAddress : string) (chainId : Z)
    (aliveSet : gmap PoolKey Pool.t) : gmap PoolKey Pool.t :=
  let k := poolKey chainId poolAddress in
  match aliveSet !! k with
  | Some p => <[k := Pool.set_refCount (minusOneAtLeast0 (Pool.refCount p)) p]> aliveSet
  | None => aliveSet
  end.

(** How many times a token list references pool [k] on [chainId]. *)
Definition references (k : PoolKey) (tokens : list Token) (chainId : Z) : Z :=
  Z.of_nat (length (filter (λ route, poolKey chainId (pool route) = k)
                           (tokens ≫= pricingPools))).

Definition hits (k : PoolKey) (chainId : Z) (routes : list PricingRoute) : nat :=
  length (filter (λ route, poolKey chainId (pool route) = k) routes).

Lemma fold_left_nested {A B C} (f : A → C → A) (g : B → list C) (l : list B) (a : A) :
  fold_left (λ a x, fold_left f (g x) a) l a = fold_left f (l ≫= g) a.
Proof.
  revert a. induction l as [|x l IH]; intros a; simpl; [done|].
  by rewrite fold_left_app, IH.
Qed.

Lemma references_hits k tokens chainId :
  references k tokens chainId = Z.of_nat (hits k chainId (tokens ≫= pricingPools)).
Proof. done. Qed.

(** *** Concrete runs *)

Definition tokenX : Token := mkToken "0xtok" [mkRoute "0xaaa" "0xusd"].


End Tracker.

(** ** Lifecycle reclaimer *)

Module Reclaimer.
Local Open Scope Z_scope.

(** What the pool sweep reads and writes: the controller's alive set, the
    state cache (one entry per pool) and the manager's own
    [poolsWithZeroRefCount], the time at which each pool was first seen
    with no reference. *)
Record GC := mkGC {
  aliveSet : gmap PoolKey AlivePool;
  cache : gmap PoolKey CacheEntry;
  poolsWithZeroRefCount : gmap PoolKey Z
}.

(** Modelled from the spec: [PoolController.removePool(address, chainId)],
    which [cleanupPools] calls and the sources do not hold; it "removes the
    PoolRef and its CacheEntry entirely". *)
Definition removePool (address : string) (chainId : Z) (gc : GC) : GC :=
  mkGC (delete (poolKey chainId address) (aliveSet gc))
       (delete (poolKey chainId address) (cache gc))
       (poolsWithZeroRefCount gc).

(** [poolController.getAliveSet()]: the tracked pools, to iterate over. *)
Definition getAliveSet (gc : GC) : list AlivePool :=
  map snd (map_to_list (aliveSet gc)).

Section CleanupPools.
(** [timingConfig.POOL_GRACE_PERIOD_MS] *)
Variable POOL_GRACE_PERIOD_MS : Z.

(** Step 1, for one pool: start the grace period of a pool seen at zero
    for the first time, cancel that of a revived one. *)
Definition observe (now : Z) (zero : gmap PoolKey Z) (pool : AlivePool) : gmap PoolKey Z :=
  let k := poolKey (chainId pool) (address pool) in
  if refCount pool =? 0 then
    match zero !! k with
    | None => <[k := now]> zero
    | Some _ => zero
    end
  else
    match zero !! k with
    | Some _ => delete k zero
    | None => zero
    end.

(** Step 2: the keys whose grace period has run out. *)
Definition expiredKeys (now : Z) (zero : gmap PoolKey Z) : list PoolKey :=
  map fst (filter (λ kt, (POOL_GRACE_PERIOD_MS <=? now - snd kt) = true)
                  (map_to_list zero)).

(** Step 3, for one key. *)
Definition evict (gc : GC) (k : PoolKey) : GC :=
  let '(chainId, address) := k in
  let gc1 := removePool address chainId gc in
  mkGC (aliveSet gc1) (cache gc1) (delete k (poolsWithZeroRefCount gc1)).

(** [GCManager.cleanupPools] at time [now]. *)
Definition cleanupPools (now : Z) (gc : GC) : GC :=
  let zero1 := fold_left (observe now) (getAliveSet gc) (poolsWithZeroRefCount gc) in
  let poolKeysToRemove := expiredKeys now zero1 in
  fold_left evict poolKeysToRemove (mkGC (aliveSet gc) (cache gc) zero1).

(** *** Step 1 touches a key only through the pool that owns it *)

Definition observed (now : Z) (pool : AlivePool) (v : option Z) : option Z :=
  if refCount pool =? 0 then
    match v with None => Some now | Some t => Some t end
  else None.

Lemma observe_lookup now zero pool k :
  observe now zero pool !! k
  = if decide (keyOf pool = k) then observed now pool (zero !! k) else zero !! k.
Proof.
  unfold observe, observed, keyOf. case_decide as Hk.
  - subst k. destruct (refCount pool =? 0);
      destruct (zero !! poolKey (chainId pool) (address pool)) eqn:E;
      by rewrite ?lookup_insert_eq, ?lookup_delete_eq.
  - destruct (refCount pool =? 0);
      destruct (zero !! poolKey (chainId pool) (address pool)) eqn:E;
      by rewrite ?lookup_insert_ne, ?lookup_delete_ne.
Qed.

Lemma observed_idemp now pool v :
  observed now pool (observed now pool v) = observed now pool v.
Proof. unfold observed. destruct (refCount pool =? 0), v; done. Qed.

Lemma observe_fold now pools zero k owner :
  (∀ p, p ∈ pools → keyOf p = k → p = owner) →
  fold_left (observe now) pools zero !! k
  = if bool_decide (Exists (λ p, keyOf p = k) pools)
    then observed now owner (zero !! k) else zero !! k.
Proof.
  revert zero. induction pools as [|p pools IH]; intros zero Hown; cbn [fold_left].
  { rewrite bool_decide_eq_false_2; [done|]. by intros ?%Exists_nil. }
  rewrite IH by (intros q Hq; apply Hown; by right).
  rewrite observe_lookup.
  destruct (decide (keyOf p = k)) as [Hk|Hk].
  - assert (p = owner) as Hp by (apply Hown; [by left|done]).
    rewrite (bool_decide_eq_true_2 (Exists _ (p :: pools))) by (by apply Exists_cons_hd).
    rewrite Hp. case_bool_decide; [apply observed_idemp|done].
  - case_bool_decide as H1; case_bool_decide as H2; try done.
    + exfalso. apply H2. by apply Exists_cons_tl.
    + exfalso. apply H1. by apply Exists_cons in H2 as [?|?].
Qed.

Lemma getAliveSet_elem gc p :
  p ∈ getAliveSet gc ↔ ∃ k, aliveSet gc !! k = Some p.
Proof.
  unfold getAliveSet. rewrite list_elem_of_fmap. split.
  - intros ([k q] & -> & Hin). exists k. by apply elem_of_map_to_list.
  - intros (k & Hk). exists (k, p). split; [done|]. by apply elem_of_map_to_list.
Qed.

(** The grace-tracking map after step 1. *)
Lemma step1_lookup now gc k :
  WellKeyed (aliveSet gc) →
  fold_left (observe now) (getAliveSet gc) (poolsWithZeroRefCount gc) !! k
  = match aliveSet gc !! k with
    | Some p => observed now p (poolsWithZeroRefCount gc !! k)
    | None => poolsWithZeroRefCount gc !! k
    end.
Proof.
  intros Hwf. destruct (aliveSet gc !! k) as [p|] eqn:E.
  - rewrite (observe_fold now _ _ k p).
    + rewrite bool_decide_eq_true_2; [done|]. apply Exists_exists. exists p.
      split; [apply getAliveSet_elem; eauto|]. by apply Hwf.
    + intros q (k' & Hk')%getAliveSet_elem Hq.
      rewrite (Hwf _ _ Hk') in Hq. subst k'. congruence.
  - rewrite (observe_fold now _ _ k (mkAlivePool "" 0 high 0 0 0%float 0 0)).
    + rewrite bool_decide_eq_false_2; [done|].
      intros (q & (k' & Hk')%getAliveSet_elem & Hq)%Exists_exists.
      rewrite (Hwf _ _ Hk') in Hq. subst k'. congruence.
    + intros q (k' & Hk')%getAliveSet_elem Hq.
      rewrite (Hwf _ _ Hk') in Hq. subst k'. congruence.
Qed.

(** *** Steps 2 and 3 *)

Lemma expiredKeys_elem now zero k :
  k ∈ expiredKeys now zero ↔ ∃ t, zero !! k = Some t ∧ POOL_GRACE_PERIOD_MS ≤ now - t.
Proof.
  unfold expiredKeys. rewrite list_elem_of_fmap. split.
  - intros ([k' t] & -> & [Hle Hin]%list_elem_of_filter). exists t. simpl in *.
    split; [by apply elem_of_map_to_list|]. by apply Z.leb_le.
  - intros (t & Hk & Hle). exists (k, t). split; [done|].
    apply list_elem_of_filter. split; [by apply Z.leb_le|].
    by apply elem_of_map_to_list.
Qed.

Lemma evict_fold ks gc k :
  let gc' := fold_left evict ks gc in
  aliveSet gc' !! k = (if bool_decide (k ∈ ks) then None else aliveSet gc !! k)
  ∧ cache gc' !! k = (if bool_decide (k ∈ ks) then None else cache gc !! k)
  ∧ poolsWithZeroRefCount gc' !! k
    = (if bool_decide (k ∈ ks) then None else poolsWithZeroRefCount gc !! k).
Proof.
  revert gc. induction ks as [|k' ks IH]; intros gc; cbn [fold_left].
  { rewrite bool_decide_eq_false_2; [done|]. apply not_elem_of_nil. }
  destruct (IH (evict gc k')) as (Ha & Hc & Hz). rewrite Ha, Hc, Hz.
  destruct k' as [c a]. unfold evict, removePool, poolKey. cbn [aliveSet cache poolsWithZeroRefCount].
  destruct (decide (k = (c, a))) as [->|Hne].
  - rewrite (bool_decide_eq_true_2 (_ ∈ (c, a) :: ks)) by (by left).
    rewrite !lookup_delete_eq. by case_bool_decide.
  - rewrite !lookup_delete_ne by done.
    case_bool_decide as H1; case_bool_decide as H2; try done.
    + exfalso. apply H2. by right.
    + exfalso. apply H1. by apply elem_of_cons in H2 as [?|?].
Qed.

(** The three maps after a whole sweep, key by key. *)
Lemma cleanupPools_lookup now gc k :
  WellKeyed (aliveSet gc) →
  let zero1 := match aliveSet gc !! k with
               | Some p => observed now p (poolsWithZeroRefCount gc !! k)
               | None => poolsWithZeroRefCount gc !! k
               end in
  let gc' := cleanupPools now gc in
  match zero1 with
  | Some t =>
    if POOL_GRACE_PERIOD_MS <=? now - t
    then aliveSet gc' !! k = None ∧ cache gc' !! k = None
         ∧ poolsWithZeroRefCount gc' !! k = None
    else aliveSet gc' !! k = aliveSet gc !! k ∧ cache gc' !! k = cache gc !! k
         ∧ poolsWithZeroRefCount gc' !! k = Some t
  | None => aliveSet gc' !! k = aliveSet gc !! k ∧ cache gc' !! k = cache gc !! k
            ∧ poolsWithZeroRefCount gc' !! k = None
  end.
Proof.
  intros Hwf zero1 gc'. subst gc'. unfold cleanupPools.
  pose proof (step1_lookup now gc k Hwf) as H1. fold zero1 in H1.
  set (z := fold_left (observe now) (getAliveSet gc) (poolsWithZeroRefCount gc)) in *.
  destruct (evict_fold (expiredKeys now z) (mkGC (aliveSet gc) (cache gc) z) k)
    as (Ha & Hc & Hz).
  rewrite Ha, Hc, Hz. cbn [aliveSet cache poolsWithZeroRefCount]. rewrite H1.
  destruct zero1 as [t|] eqn:E.
  - destruct (Z.leb_spec POOL_GRACE_PERIOD_MS (now - t)) as [Hle|Hlt].
    + rewrite bool_decide_eq_true_2; [done|]. apply expiredKeys_elem. eauto.
    + rewrite bool_decide_eq_false_2; [done|].
      intros (t' & Ht' & Hle)%expiredKeys_elem. rewrite H1 in Ht'.
      injection Ht' as <-. lia.
  - rewrite bool_decide_eq_false_2; [done|].
    intros (t' & Ht' & Hle)%expiredKeys_elem. rewrite H1 in Ht'. discriminate.
Qed.

(** C6. One sweep at time [now], for a tracked pool: seen with no
    reference for the first time, its grace start is recorded as [now]
    and, the grace period being positive, it stays with its cache entry;
    seen with references, its recorded grace start is cleared and it stays
    with its cache entry; seen with no reference and a grace start [t0],
    it is removed with its cache entry and its record once
    [now - t0 ≥ POOL_GRACE_PERIOD_MS], and kept until then. *)
Theorem cleanupPools_grace (now : Z) (gc : GC) (k : PoolKey) (p : AlivePool) :
  WellKeyed (aliveSet gc) →
  aliveSet gc !! k = Some p →
  let gc' := cleanupPools now gc in
  (refCount p = 0 → poolsWithZeroRefCount gc !! k = None →
   0 < POOL_GRACE_PERIOD_MS →
     poolsWithZeroRefCount gc' !! k = Some now
     ∧ aliveSet gc' !! k = Some p ∧ cache gc' !! k = cache gc !! k)
  ∧ (refCount p ≠ 0 →
     poolsWithZeroRefCount gc' !! k = None
     ∧ aliveSet gc' !! k = Some p ∧ cache gc' !! k = cache gc !! k)
  ∧ (∀ t0, refCount p = 0 → poolsWithZeroRefCount gc !! k = Some t0 →
     (POOL_GRACE_PERIOD_MS ≤ now - t0 →
        aliveSet gc' !! k = None ∧ cache gc' !! k = None
        ∧ poolsWithZeroRefCount gc' !! k = None)
     ∧ (now - t0 < POOL_GRACE_PERIOD_MS →
        aliveSet gc' !! k = Some p ∧ cache gc' !! k = cache gc !! k
        ∧ poolsWithZeroRefCount gc' !! k = Some t0)).
Proof.
  intros Hwf Hp gc'. pose proof (cleanupPools_lookup now gc k Hwf) as H.
  cbv zeta in H. fold gc' in H. rewrite Hp in H. unfold observed in H.
  split; [|split].
  - intros Hz Hnone Hgrace. rewrite Hz, Hnone in H. simpl in H.
    destruct (Z.leb_spec POOL_GRACE_PERIOD_MS (now - now)); [lia|].
    by destruct H as (-> & -> & ->).
  - intros Hnz. apply Z.eqb_neq in Hnz. rewrite Hnz in H.
    by destruct H as (-> & -> & ->).
  - intros t0 Hz Ht0. rewrite Hz, Ht0 in H. simpl in H. split; intros Hcmp.
    + destruct (Z.leb_spec POOL_GRACE_PERIOD_MS (now - t0)); [done|lia].
    + destruct (Z.leb_spec POOL_GRACE_PERIOD_MS (now - t0)); [lia|].
      by destruct H as (-> & -> & ->).
Qed.
End CleanupPools.

(** *** A concrete sweep history *)

Definition idle : AlivePool := mkAlivePool "0xaaa" 1 low 0 10 1%float 0 0.

Definition gc0 : GC :=
  mkGC {[ (1, "0xaaa") := idle ]}
       {[ (1, "0xaaa") := mkCacheEntry "0xaaa" 1%float 0 10 1 0 30000 ]} ∅.

Lemma WellKeyed_gc0 : WellKeyed (aliveSet gc0).
Proof.
  intros k p. unfold gc0. cbn [aliveSet]. rewrite lookup_singleton.
  case_decide; [|done]. by intros [= <-].
Defined.

Lemma cleanupPools_grace_witness :
  poolsWithZeroRefCount (cleanupPools 20000 30000 gc0) !! (1, "0xaaa") = Some 30000
  ∧ aliveSet (cleanupPools 20000 60000 (cleanupPools 20000 30000 gc0)) !! (1, "0xaaa") = None
  ∧ cache (cleanupPools 20000 60000 (cleanupPools 20000 30000 gc0)) !! (1, "0xaaa") = None.
Proof.
  destruct (cleanupPools_grace 20000 30000 gc0 (1, "0xaaa") idle WellKeyed_gc0 eq_refl)
    as (Hfirst & _ & _).
  destruct Hfirst as (Hz & Ha & Hc); [reflexivity|reflexivity|lia|].
  split; [exact Hz|].
  assert (WellKeyed (aliveSet (cleanupPools 20000 30000 gc0))) as Hwf.
  { intros k p Hk. vm_compute in Hk.
    destruct k as [c a]. revert Hk. unfold lookup. intros Hk.
    pose proof (WellKeyed_gc0 (c, a) p) as Hw. apply Hw. exact Hk. }
  destruct (cleanupPools_grace 20000 60000 (cleanupPools 20000 30000 gc0)
              (1, "0xaaa") idle Hwf Ha) as (_ & _ & Hexp).
  destruct (Hexp 30000 eq_refl Hz) as [Hgone _].
  destruct Hgone as (Ha' & Hc' & _); [lia|]. by split.
Defined.

End Reclaimer.

(** ** Pricing resolver *)

Module Pricing.
Import Registry.

(** *** Strings and numbers of the host *)

(** [String.prototype.toLowerCase] on the ASCII letters; token and pool
    addresses are hexadecimal strings. *)
Definition lowerAscii (c : ascii) : ascii :=
  let n := nat_of_ascii c in
  if (65 <=? n)%nat && (n <=? 90)%nat then ascii_of_nat (n + 32) else c.

Fixpoint toLowerCase (s : string) : string :=
  match s with
  | EmptyString => EmptyString
  | String c rest => String (lowerAscii c) (toLowerCase rest)
  end.

(** [Number(x)] for a [bigint]: the nearest double, ties to even. *)
Definition Number (x : Z) : float :=
  SF2Prim (binary_normalize prec emax x 0 false).

(** [2 ** 96] *)
Definition two96 : float := 0x1p96%float.

(** *** Static tables *)

Definition USD_STABLECOINS (chainId : Z) : option (gset string) :=
  if (chainId =? 1)%Z then
    Some {[ "0xa0b86991c6218b36c1d19d4a2e9eb0ce3606eb48";
            "0xdac17f958d2ee523a2206206994597c13d831ec7";
            "0x6b175474e89094c44da98b954eedeac495271d0f" ]}
  else if (chainId =? 137)%Z then
    Some {[ "0x2791bca1f2de4661ed88a30c99a7a9449aa84174";
            "0xc2132d05d31c914a87c6611c10748aeb04b58e8f";
            "0x8f3cf7ad23cd3cadbd9735aff958023d60d76ee6" ]}
  else None.

Definition TOKEN_DECIMALS : gmap string float :=
  list_to_map [
    ("0xa0b86991c6218b36c1d19d4a2e9eb0ce3606eb48", 6%float);
    ("0xdac17f958d2ee523a2206206994597c13d831ec7", 6%float);
    ("0x6b175474e89094c44da98b954eedeac495271d0f", 18%float);
    ("0xc02aaa39b223fe8d0a0e5c4f27ead9083c756cc2", 18%float);
    ("0x2260fac5e5542a773aa44fbcfedd86a9abde89b6", 8%float);
    ("0x2791bca1f2de4661ed88a30c99a7a9449aa84174", 6%float);
    ("0xc2132d05d31c914a87c6611c10748aeb04b58e8f", 6%float);
    ("0x8f3cf7ad23cd3cadbd9735aff958023d60d76ee6", 18%float);
    ("0x7ceb23fd6bc0add59e62ac25578270cff1b9f619", 18%float);
    ("0x0d500b1d8e8ef31e21c99d1db9a6444d3adf1270", 18%float)
  ].

(** [isUsdStablecoin]: [USD_STABLECOINS[chainId]?.has(...) ?? false] *)
Definition isUsdStablecoin (tokenAddress : string) (chainId : Z) : bool :=
  match USD_STABLECOINS chainId with
  | Some stable => bool_decide (toLowerCase tokenAddress ∈ stable)
  | None => false
  end.

(** *** The shared state cache and the reads made of it *)

(** The fields of a cached pool state that pricing reads. *)
Record PoolState := mkPoolState {
  token0 : string;
  token1 : string;
  sqrtPriceX96 : Z
}.

Record TokenMetadata := mkTokenMetadata {
  decimals : option float
}.

(** [SharedStateCache]: its two stores. *)
Record SharedStateCache := mkSharedStateCache {
  poolStateStore : gmap string PoolState;
  tokenMetadataStore : gmap string TokenMetadata
}.

(** A read of the shared state cache. *)
Inductive Lookup :=
  | PoolStateLookup (poolAddress : string)
  | TokenMetadataLookup (tokenAddress : string).

(** A computation together with the cache reads it made, in order. *)
Definition Logged (A : Type) : Type := A * list Lookup.

Definition ret {A} (x : A) : Logged A := (x, []).

Definition bind {A B} (m : Logged A) (f : A → Logged B) : Logged B :=
  let '(x, reads1) := m in
  let '(y, reads2) := f x in
  (y, reads1 ++ reads2).

Arguments bind : simpl never.

Notation "'let*' x := m 'in' k" := (bind m (λ x, k))
  (at level 10, x name, m at level 100, k at level 200, only parsing).

(** What [computeSpotPrice] comes back with: a price or [null], unless the
    recursion was cut by the fuel of the model. *)
Inductive Answer :=
  | OutOfFuel
  | Returned (price : option float).

Section SpotPricingEngine.
(** [Math.pow], which the language leaves to the host's approximation. *)
Variable Math_pow : float → float → float.
(** [sharedStateCache] and [storageService.getPoolRegistry]. *)
Variable sharedStateCache : SharedStateCache.
Variable getPoolRegistry : Z → PoolRegistry.

Definition getPoolState (poolAddress : string) : Logged (option PoolState) :=
  (poolStateStore sharedStateCache !! poolAddress, [PoolStateLookup poolAddress]).

Definition getTokenMetadata (tokenAddress : string) : Logged (option TokenMetadata) :=
  (tokenMetadataStore sharedStateCache !! tokenAddress, [TokenMetadataLookup tokenAddress]).

(** [getDecimals]: the hardcoded table first, then the cached metadata,
    then 18. *)
Definition getDecimals (tokenAddress : string) : Logged float :=
  let normalized := toLowerCase tokenAddress in
  match TOKEN_DECIMALS !! normalized with
  | Some d => ret d
  | None =>
    let* metadata := getTokenMetadata tokenAddress in
    ret (default 18%float (metadata ≫= decimals))
  end.

(** First loop: a route to a stablecoin whose pool is cached. *)
Fixpoint findStableRoute (chainId : Z) (routes : list PricingRoute) :
    Logged (option PricingRoute) :=
  match routes with
  | [] => ret None
  | route :: rest =>
    let* poolState := getPoolState (pool route) in
    if bool_decide (is_Some poolState) && isUsdStablecoin (base route) chainId
    then ret (Some route)
    else findStableRoute chainId rest
  end.

(** Second loop: any route whose pool is cached. *)
Fixpoint findCachedRoute (routes : list PricingRoute) : Logged (option PricingRoute) :=
  match routes with
  | [] => ret None
  | route :: rest =>
    let* poolState := getPoolState (pool route) in
    if bool_decide (is_Some poolState) then ret (Some route)
    else findCachedRoute rest
  end.

(** [rawPrice] after the decimal adjustment: token1 per token0. *)
Definition adjustedRawPrice (poolState : PoolState)
    (token0Decimals token1Decimals : float) : float :=
  let sqrtPrice := (Number (sqrtPriceX96 poolState) / two96)%float in
  let rawPrice := (sqrtPrice * sqrtPrice)%float in
  let decimalAdjustment := Math_pow 10%float (token0Decimals - token1Decimals)%float in
  (rawPrice * decimalAdjustment)%float.

(** [isToken0 ? rawPrice : (rawPrice > 0 ? 1 / rawPrice : 0)] *)
Definition orient (isToken0 : bool) (rawPrice : float) : float :=
  if isToken0 then rawPrice
  else if (0 <? rawPrice)%float then (1 / rawPrice)%float else 0%float.

(** Lines 117-140: the price of the token in units of the hop's base. *)
Definition priceInBaseToken (normalizedToken : string) (poolState : PoolState) :
    Logged float :=
  let isToken0 := String.eqb (toLowerCase (token0 poolState)) normalizedToken in
  let* token0Decimals := getDecimals (token0 poolState) in
  let* token1Decimals := getDecimals (token1 poolState) in
  ret (orient isToken0 (adjustedRawPrice poolState token0Decimals token1Decimals)).

(** The body of [computeSpotPrice], its recursive call being [self]. *)
Definition computeSpotPriceBody (self : string → Z → Logged Answer)
    (tokenAddress : string) (chainId : Z) : Logged Answer :=
  let normalizedToken := toLowerCase tokenAddress in
  if isUsdStablecoin normalizedToken chainId then ret (Returned (Some 1%float))
  else
    match pricingRoutes (getPoolRegistry chainId) !! normalizedToken with
    | None | Some [] => ret (Returned None)
    | Some routes =>
      let* stableRoute := findStableRoute chainId routes in
      let* bestRoute :=
        match stableRoute with
        | Some route => ret (Some route)
        | None => findCachedRoute routes
        end in
      match bestRoute with
      | None => ret (Returned None)
      | Some bestRoute =>
        let* poolState := getPoolState (pool bestRoute) in
        match poolState with
        | None => ret (Returned None)
        | Some poolState =>
          let* price := priceInBaseToken normalizedToken poolState in
          if isUsdStablecoin (base bestRoute) chainId then ret (Returned (Some price))
          else
            let* baseUsdPrice := self (base bestRoute) chainId in
            match baseUsdPrice with
            | OutOfFuel => ret OutOfFuel
            | Returned None => ret (Returned None)
            | Returned (Some b) => ret (Returned (Some (price * b)%float))
            end
        end
      end
    end.

(** [computeSpotPrice], with [fuel] bounding the depth of its recursion. *)
Fixpoint computeSpotPrice (fuel : nat) : string → Z → Logged Answer :=
  match fuel with
  | O => λ _ _, ret OutOfFuel
  | S fuel' => computeSpotPriceBody (computeSpotPrice fuel')
  end.

(** *** The answer, without the reads *)

Lemma fst_bind {A B} (m : Logged A) (f : A → Logged B) :
  fst (bind m f) = fst (f (fst m)).
Proof. unfold bind. destruct m as [x r1]. simpl. by destruct (f x). Qed.

(** The decimals [getDecimals] answers, the route the two loops select and
    the price of one hop. *)
Definition decimalsOf (tokenAddress : string) : float :=
  fst (getDecimals tokenAddress).

Definition bestRouteOf (chainId : Z) (routes : list PricingRoute) :
    option PricingRoute :=
  match fst (findStableRoute chainId routes) with
  | Some route => Some route
  | None => fst (findCachedRoute routes)
  end.

Definition hopPriceOf (normalizedToken : string) (poolState : PoolState) : float :=
  orient (String.eqb (toLowerCase (token0 poolState)) normalizedToken)
         (adjustedRawPrice poolState (decimalsOf (token0 poolState))
                           (decimalsOf (token1 poolState))).

Lemma fst_priceInBaseToken normalizedToken poolState :
  fst (priceInBaseToken normalizedToken poolState) = hopPriceOf normalizedToken poolState.
Proof. unfold priceInBaseToken. by rewrite !fst_bind. Qed.

Lemma lowerAscii_idemp c : lowerAscii (lowerAscii c) = lowerAscii c.
Proof. destruct c as [[] [] [] [] [] [] [] []]; reflexivity. Qed.

Lemma toLowerCase_idemp s : toLowerCase (toLowerCase s) = toLowerCase s.
Proof. induction s as [|c s IH]; simpl; [done|]. by rewrite lowerAscii_idemp, IH. Qed.

Lemma isUsdStablecoin_normalized tokenAddress chainId :
  isUsdStablecoin (toLowerCase tokenAddress) chainId = isUsdStablecoin tokenAddress chainId.
Proof. unfold isUsdStablecoin. by rewrite toLowerCase_idemp. Qed.

Lemma findStableRoute_Some chainId routes route :
  fst (findStableRoute chainId routes) = Some route →
  route ∈ routes ∧ is_Some (poolStateStore sharedStateCache !! pool route).
Proof.
  induction routes as [|r routes IH]; simpl; [done|].
  rewrite fst_bind. simpl.
  destruct (bool_decide _ && _) eqn:E; simpl.
  - intros [= <-]. apply andb_true_iff in E as [E _]. apply bool_decide_eq_true in E.
    split; [by left|done].
  - intros H. destruct (IH H). split; [by right|done].
Qed.

Lemma findCachedRoute_Some routes route :
  fst (findCachedRoute routes) = Some route →
  route ∈ routes ∧ is_Some (poolStateStore sharedStateCache !! pool route).
Proof.
  induction routes as [|r routes IH]; simpl; [done|].
  rewrite fst_bind. simpl. case_bool_decide as E; simpl.
  - intros [= <-]. split; [by left|done].
  - intros H. destruct (IH H). split; [by right|done].
Qed.

Lemma bestRouteOf_Some chainId routes route :
  bestRouteOf chainId routes = Some route →
  route ∈ routes ∧ is_Some (poolStateStore sharedStateCache !! pool route).
Proof.
  unfold bestRouteOf. destruct (fst (findStableRoute chainId routes)) eqn:E.
  - intros [= <-]. by apply (findStableRoute_Some chainId).
  - apply findCachedRoute_Some.
Qed.

Lemma bestRouteOf_uncached chainId routes :
  (∀ route, route ∈ routes → poolStateStore sharedStateCache !! pool route = None) →
  bestRouteOf chainId routes = None.
Proof.
  intros H. destruct (bestRouteOf chainId routes) as [route|] eqn:E; [|done].
  apply bestRouteOf_Some in E as [Hin [ps Hps]]. rewrite (H _ Hin) in Hps. done.
Qed.

(** What the body answers for a token that is not a stablecoin. *)
Lemma computeSpotPriceBody_answer self tokenAddress chainId :
  isUsdStablecoin tokenAddress chainId = false →
  fst (computeSpotPriceBody self tokenAddress chainId)
  = match pricingRoutes (getPoolRegistry chainId) !! toLowerCase tokenAddress with
    | None => Returned None
    | Some routes =>
      match bestRouteOf chainId routes with
      | None => Returned None
      | Some bestRoute =>
        match poolStateStore sharedStateCache !! pool bestRoute with
        | None => Returned None
        | Some poolState =>
          let price := hopPriceOf (toLowerCase tokenAddress) poolState in
          if isUsdStablecoin (base bestRoute) chainId then Returned (Some price)
          else match fst (self (base bestRoute) chainId) with
               | OutOfFuel => OutOfFuel
               | Returned None => Returned None
               | Returned (Some b) => Returned (Some (price * b)%float)
               end
        end
      end
    end.
Proof.
  intros Hns. unfold computeSpotPriceBody.
  rewrite isUsdStablecoin_normalized, Hns.
  destruct (pricingRoutes (getPoolRegistry chainId) !! toLowerCase tokenAddress)
    as [[|r routes]|]; try done.
  remember (r :: routes) as rs eqn:Hrs. clear Hrs. rewrite !fst_bind. unfold bestRouteOf.
  destruct (fst (findStableRoute chainId rs)) as [route|]; simpl fst.
  - rewrite fst_bind. simpl fst.
    destruct (poolStateStore sharedStateCache !! pool route) as [ps|]; [|reflexivity].
    rewrite fst_bind, fst_priceInBaseToken.
    destruct (isUsdStablecoin (base route) chainId); [reflexivity|].
    rewrite fst_bind. destruct (fst (self (base route) chainId)) as [|[b|]]; reflexivity.
  - destruct (fst (findCachedRoute rs)) as [route|]; [|reflexivity].
    rewrite fst_bind. simpl fst.
    destruct (poolStateStore sharedStateCache !! pool route) as [ps|]; [|reflexivity].
    rewrite fst_bind, fst_priceInBaseToken.
    destruct (isUsdStablecoin (base route) chainId); [reflexivity|].
    rewrite fst_bind. destruct (fst (self (base route) chainId)) as [|[b|]]; reflexivity.
Qed.

(** *** Stablecoins and missing data *)

(** C7. A known USD stablecoin is priced 1.0 at once, with no read of the
    cache; a token with no pricing route (none registered, or an empty
    list) gets [null], again with no read; and so does a token none of
    whose routes has a cached pool state. The answer is a value of the
    function in each case. *)
Theorem computeSpotPrice_stable_or_absent (fuel : nat) (tokenAddress : string)
    (chainId : Z) :
  (isUsdStablecoin tokenAddress chainId = true →
     computeSpotPrice (S fuel) tokenAddress chainId = (Returned (Some 1%float), []))
  ∧ (isUsdStablecoin tokenAddress chainId = false →
     pricingRoutes (getPoolRegistry chainId) !! toLowerCase tokenAddress = None
     ∨ pricingRoutes (getPoolRegistry chainId) !! toLowerCase tokenAddress = Some [] →
     computeSpotPrice (S fuel) tokenAddress chainId = (Returned None, []))
  ∧ (isUsdStablecoin tokenAddress chainId = false →
     ∀ routes,
       pricingRoutes (getPoolRegistry chainId) !! toLowerCase tokenAddress = Some routes →
       (∀ route, route ∈ routes →
          poolStateStore sharedStateCache !! pool route = None) →
       fst (computeSpotPrice (S fuel) tokenAddress chainId) = Returned None).
Proof.
  cbn [computeSpotPrice]. split; [|split].
  - intros Hs. unfold computeSpotPriceBody.
    by rewrite isUsdStablecoin_normalized, Hs.
  - intros Hns Hroutes. unfold computeSpotPriceBody.
    rewrite isUsdStablecoin_normalized, Hns. by destruct Hroutes as [-> | ->].
  - intros Hns routes Hroutes Huncached.
    rewrite computeSpotPriceBody_answer by done.
    by rewrite Hroutes, bestRouteOf_uncached.
Qed.

(** *** The price of one hop *)

(** C8. For the hop selected for a token, with a stablecoin base: the
    answer is the square of [Number(sqrtPriceX96) / 2 ** 96] — the one
    formula used, whatever the kind of pool — times
    [Math.pow(10, token0Decimals - token1Decimals)], taken as it is when
    the token is [token0] and otherwise inverted when it is positive and
    replaced by 0 when it is not; the decimals of a token come from the
    hardcoded table, else from the cached metadata, else are 18. *)
Theorem computeSpotPrice_hop_formula (fuel : nat) (tokenAddress : string)
    (chainId : Z) (routes : list PricingRoute) (bestRoute : PricingRoute)
    (poolState : PoolState) :
  isUsdStablecoin tokenAddress chainId = false →
  pricingRoutes (getPoolRegistry chainId) !! toLowerCase tokenAddress = Some routes →
  bestRouteOf chainId routes = Some bestRoute →
  poolStateStore sharedStateCache !! pool bestRoute = Some poolState →
  isUsdStablecoin (base bestRoute) chainId = true →
  let sqrtPrice := (Number (sqrtPriceX96 poolState) / 0x1p96)%float in
  let rawPrice :=
    (sqrtPrice * sqrtPrice
     * Math_pow 10 (decimalsOf (token0 poolState) - decimalsOf (token1 poolState)))%float in
  fst (computeSpotPrice (S fuel) tokenAddress chainId)
  = Returned (Some (if String.eqb (toLowerCase (token0 poolState))
                                  (toLowerCase tokenAddress)
                    then rawPrice
                    else if (0 <? rawPrice)%float then (1 / rawPrice)%float
                         else 0%float))
  ∧ (∀ token d, TOKEN_DECIMALS !! toLowerCase token = Some d → decimalsOf token = d)
  ∧ (∀ token, TOKEN_DECIMALS !! toLowerCase token = None →
       decimalsOf token
       = default 18%float (tokenMetadataStore sharedStateCache !! token ≫= decimals)).
Proof.
  intros Hns Hroutes Hbest Hstate Hbase sqrtPrice rawPrice.
  split; [|split].
  - cbn [computeSpotPrice]. rewrite computeSpotPriceBody_answer by done.
    by rewrite Hroutes, Hbest, Hstate, Hbase.
  - intros token d Hd. unfold decimalsOf, getDecimals. by rewrite Hd.
  - intros token Hd. unfold decimalsOf, getDecimals. rewrite Hd. by rewrite fst_bind.
Qed.

(** *** Two hops *)

(** The registry's two-hop maximum on one network: the base of a route is
    a stablecoin, or every route of that base leads to a stablecoin. *)
Definition TwoHop (chainId : Z) : Prop :=
  ∀ token routes route,
    pricingRoutes (getPoolRegistry chainId) !! token = Some routes →
    route ∈ routes →
    isUsdStablecoin (base route) chainId = false →
    ∀ routes' route',
      pricingRoutes (getPoolRegistry chainId) !! toLowerCase (base route) = Some routes' →
      route' ∈ routes' →
      isUsdStablecoin (base route') chainId = true.

(** A token all of whose routes reach a stablecoin is resolved without
    any recursive call. *)
Lemma computeSpotPriceBody_direct tokenAddress chainId :
  (∀ routes route,
     pricingRoutes (getPoolRegistry chainId) !! toLowerCase tokenAddress = Some routes →
     route ∈ routes → isUsdStablecoin (base route) chainId = true) →
  ∃ price, ∀ self,
    fst (computeSpotPriceBody self tokenAddress chainId) = Returned price.
Proof.
  intros Hdirect. destruct (isUsdStablecoin tokenAddress chainId) eqn:Hs.
  - exists (Some 1%float). intros self. unfold computeSpotPriceBody.
    by rewrite isUsdStablecoin_normalized, Hs.
  - destruct (pricingRoutes (getPoolRegistry chainId) !! toLowerCase tokenAddress)
      as [routes|] eqn:Hroutes.
    2:{ exists None. intros self. rewrite computeSpotPriceBody_answer by done.
        by rewrite Hroutes. }
    destruct (bestRouteOf chainId routes) as [bestRoute|] eqn:Hbest.
    2:{ exists None. intros self. rewrite computeSpotPriceBody_answer by done.
        by rewrite Hroutes, Hbest. }
    destruct (poolStateStore sharedStateCache !! pool bestRoute) as [poolState|] eqn:Hstate.
    2:{ exists None. intros self. rewrite computeSpotPriceBody_answer by done.
        by rewrite Hroutes, Hbest, Hstate. }
    exists (Some (hopPriceOf (toLowerCase tokenAddress) poolState)). intros self.
    rewrite computeSpotPriceBody_answer by done.
    rewrite Hroutes, Hbest, Hstate.
    apply bestRouteOf_Some in Hbest as [Hin _].
    by rewrite (Hdirect routes bestRoute eq_refl Hin).
Qed.

(** C9. On a network whose registry keeps to the two-hop maximum, price
    resolution returns — a price or [null] — for every token once the
    recursion may go two levels deep, and deeper recursion changes
    nothing; when the selected hop's base is not a stablecoin, the base is
    resolved by one recursive call that itself recurses no further, and the
    answer is the hop price times the base's USD price ([null] when the
    base has none). *)
Theorem computeSpotPrice_two_hop_terminates (chainId : Z) (tokenAddress : string)
    (fuel : nat) :
  TwoHop chainId → (2 ≤ fuel)%nat →
  (∃ price, fst (computeSpotPrice fuel tokenAddress chainId) = Returned price)
  ∧ fst (computeSpotPrice fuel tokenAddress chainId)
    = fst (computeSpotPrice 2 tokenAddress chainId)
  ∧ (∀ routes bestRoute poolState,
       isUsdStablecoin tokenAddress chainId = false →
       pricingRoutes (getPoolRegistry chainId) !! toLowerCase tokenAddress = Some routes →
       bestRouteOf chainId routes = Some bestRoute →
       poolStateStore sharedStateCache !! pool bestRoute = Some poolState →
       isUsdStablecoin (base bestRoute) chainId = false →
       ∃ basePrice,
         fst (computeSpotPrice 1 (base bestRoute) chainId) = Returned basePrice
         ∧ fst (computeSpotPrice fuel tokenAddress chainId)
           = Returned ((λ b, (hopPriceOf (toLowerCase tokenAddress) poolState * b)%float)
                         <$> basePrice)).
Proof.
  intros Htwo Hfuel.
  destruct fuel as [|[|fuel]]; [lia|lia|]. clear Hfuel.
  assert (∀ routes bestRoute,
            pricingRoutes (getPoolRegistry chainId) !! toLowerCase tokenAddress = Some routes →
            bestRouteOf chainId routes = Some bestRoute →
            isUsdStablecoin (base bestRoute) chainId = false →
            ∃ basePrice, ∀ self,
              fst (computeSpotPriceBody self (base bestRoute) chainId) = Returned basePrice)
    as Hbase.
  { intros routes bestRoute Hroutes Hbest Hns'.
    apply computeSpotPriceBody_direct. intros routes' route' Hroutes' Hin'.
    apply bestRouteOf_Some in Hbest as [Hin _].
    by apply (Htwo _ _ _ Hroutes Hin Hns' _ _ Hroutes' Hin'). }
  assert (∃ price, fst (computeSpotPrice (S (S fuel)) tokenAddress chainId) = Returned price
                   ∧ fst (computeSpotPrice 2 tokenAddress chainId) = Returned price)
    as (price & Hdeep & Htwice).
  { cbn [computeSpotPrice].
    destruct (isUsdStablecoin tokenAddress chainId) eqn:Hs.
    { exists (Some 1%float). unfold computeSpotPriceBody at 1 3.
      by rewrite isUsdStablecoin_normalized, Hs. }
    rewrite !(computeSpotPriceBody_answer _ tokenAddress) by done.
    destruct (pricingRoutes (getPoolRegistry chainId) !! toLowerCase tokenAddress)
      as [routes|] eqn:Hroutes; [|by exists None].
    destruct (bestRouteOf chainId routes) as [bestRoute|] eqn:Hbest; [|by exists None].
    destruct (poolStateStore sharedStateCache !! pool bestRoute) as [poolState|];
      [|by exists None].
    destruct (isUsdStablecoin (base bestRoute) chainId) eqn:Hns'; [by eexists|].
    destruct (Hbase _ _ eq_refl Hbest Hns') as (basePrice & Hb).
    rewrite !Hb. destruct basePrice; by eexists. }
  split; [by exists price|]. split; [by rewrite Hdeep, Htwice|].
  intros routes bestRoute poolState Hns Hroutes Hbest Hstate Hns'.
  destruct (Hbase _ _ Hroutes Hbest Hns') as (basePrice & Hb).
  exists basePrice. cbn [computeSpotPrice]. split; [apply Hb|].
  rewrite computeSpotPriceBody_answer by done.
  rewrite Hroutes, Hbest, Hstate, Hns', Hb. by destruct basePrice.
Qed.

(** *** The guarded inversion *)

(** A raw price that compares equal to zero is not positive. *)
Lemma zero_not_positive (rawPrice : float) :
  (rawPrice =? 0)%float = true → (0 <? rawPrice)%float = false.
Proof.
  rewrite FloatAxioms.eqb_spec, FloatAxioms.ltb_spec.
  change (Prim2SF 0%float) with (S754_zero false).
  destruct (Prim2SF rawPrice) as [s|s| |s m e]; simpl; try discriminate; try reflexivity.
  all: destruct s; simpl; try discriminate; reflexivity.
Qed.

(** C10. When the pool state selected for a token gives a raw price equal
    to zero and the token is not [token0] (it sits on the token1 side), no
    division is made: the price of the hop is 0, and a hop to a stablecoin
    makes [computeSpotPrice] return the price 0, not [null]; over a base
    that is not a stablecoin the answer is 0 times the base's price. *)
Theorem computeSpotPrice_zero_raw_price (fuel : nat) (tokenAddress : string)
    (chainId : Z) (routes : list PricingRoute) (bestRoute : PricingRoute)
    (poolState : PoolState) :
  isUsdStablecoin tokenAddress chainId = false →
  pricingRoutes (getPoolRegistry chainId) !! toLowerCase tokenAddress = Some routes →
  bestRouteOf chainId routes = Some bestRoute →
  poolStateStore sharedStateCache !! pool bestRoute = Some poolState →
  String.eqb (toLowerCase (token0 poolState)) (toLowerCase tokenAddress) = false →
  (adjustedRawPrice poolState (decimalsOf (token0 poolState))
                    (decimalsOf (token1 poolState)) =? 0)%float = true →
  hopPriceOf (toLowerCase tokenAddress) poolState = 0%float
  ∧ (isUsdStablecoin (base bestRoute) chainId = true →
     fst (computeSpotPrice (S fuel) tokenAddress chainId) = Returned (Some 0%float))
  ∧ (isUsdStablecoin (base bestRoute) chainId = false →
     ∀ b, fst (computeSpotPrice fuel (base bestRoute) chainId) = Returned (Some b) →
          fst (computeSpotPrice (S fuel) tokenAddress chainId)
          = Returned (Some (0 * b)%float)).
Proof.
  intros Hns Hroutes Hbest Hstate Hside Hzero.
  assert (hopPriceOf (toLowerCase tokenAddress) poolState = 0%float) as Hhop.
  { unfold hopPriceOf, orient. by rewrite Hside, (zero_not_positive _ Hzero). }
  split; [done|]. cbn [computeSpotPrice].
  rewrite computeSpotPriceBody_answer by done.
  rewrite Hroutes, Hbest, Hstate, Hhop. split.
  - by intros ->.
  - intros -> b Hb. by rewrite Hb.
Qed.
End SpotPricingEngine.

(** *** A concrete network *)

(** A host power function for the runs below: repeated multiplication for an
    integral exponent, one division for a negative one. *)
Definition integral (y : float) : option Z :=
  match Prim2SF y with
  | S754_zero _ => Some 0%Z
  | S754_finite s m e =>
    let magnitude :=
      if (0 <=? e)%Z then Some (Z.pos m * 2 ^ e)%Z
      else if (Z.pos m mod 2 ^ (- e) =? 0)%Z then Some (Z.pos m / 2 ^ (- e))%Z
      else None in
    (λ z, if s then (- z)%Z else z) <$> magnitude
  | _ => None
  end.

Definition hostPow (x y : float) : float :=
  match integral y with
  | Some n =>
    if (0 <=? n)%Z then Z.iter n (PrimFloat.mul x) 1%float
    else (1 / Z.iter (- n) (PrimFloat.mul x) 1%float)%float
  | None => nan
  end.

Definition USDC : string := "0xa0b86991c6218b36c1d19d4a2e9eb0ce3606eb48".
Definition WETH : string := "0xc02aaa39b223fe8d0a0e5c4f27ead9083c756cc2".
(** Two tokens outside the hardcoded tables. *)
Definition TKN : string := "0x1111111111111111111111111111111111111111".
Definition ALT : string := "0x2222222222222222222222222222222222222222".

(** Ethereum: [TKN] is paired with USDC in a pool whose price slot is still
    zero; [ALT] is paired with WETH at a quarter of a WETH, and WETH with
    USDC at 2500 USDC. *)
Definition registry1 : PoolRegistry :=
  mkPoolRegistry (list_to_map [
    (TKN, [mkRoute "0xpool-usdc-tkn" USDC]);
    (ALT, [mkRoute "0xpool-alt-weth" WETH]);
    (WETH, [mkRoute "0xpool-usdc-weth" USDC])
  ]).

Definition registryOf (chainId : Z) : PoolRegistry :=
  if (chainId =? 1)%Z then registry1 else mkPoolRegistry ∅.

Definition cache1 : SharedStateCache :=
  mkSharedStateCache
    (list_to_map [
       ("0xpool-usdc-tkn", mkPoolState USDC TKN 0);
       ("0xpool-alt-weth", mkPoolState ALT WETH (2 ^ 95));
       ("0xpool-usdc-weth", mkPoolState USDC WETH (20000 * 2 ^ 96))
     ])
    ∅.

Example getDecimals_examples :
  decimalsOf cache1 USDC = 6%float ∧ decimalsOf cache1 TKN = 18%float.
Proof. split; reflexivity. Qed.

Lemma computeSpotPrice_stable_or_absent_witness :
  computeSpotPrice hostPow cache1 registryOf 1 USDC 1 = (Returned (Some 1%float), [])
  ∧ computeSpotPrice hostPow cache1 registryOf 1 "0xunknown" 1 = (Returned None, [])
  ∧ fst (computeSpotPrice hostPow (mkSharedStateCache ∅ ∅) registryOf 1 TKN 1)
    = Returned None.
Proof.
  split; [|split].
  - apply (computeSpotPrice_stable_or_absent hostPow cache1 registryOf 0 USDC 1).
    vm_compute. reflexivity.
  - apply (computeSpotPrice_stable_or_absent hostPow cache1 registryOf 0 "0xunknown" 1).
    + vm_compute. reflexivity.
    + left. vm_compute. reflexivity.
  - apply (computeSpotPrice_stable_or_absent hostPow (mkSharedStateCache ∅ ∅)
             registryOf 0 TKN 1) with (routes := [mkRoute "0xpool-usdc-tkn" USDC]).
    + vm_compute. reflexivity.
    + vm_compute. reflexivity.
    + intros route _. apply lookup_empty.
Defined.

Lemma computeSpotPrice_hop_formula_witness :
  fst (computeSpotPrice hostPow cache1 registryOf 1 WETH 1)
  = Returned (Some 2500%float).
Proof.
  pose proof (computeSpotPrice_hop_formula hostPow cache1 registryOf 0 WETH 1
                [mkRoute "0xpool-usdc-weth" USDC] (mkRoute "0xpool-usdc-weth" USDC)
                (mkPoolState USDC WETH (20000 * 2 ^ 96))
                ltac:(vm_compute; reflexivity) ltac:(vm_compute; reflexivity)
                ltac:(vm_compute; reflexivity) ltac:(vm_compute; reflexivity)
                ltac:(vm_compute; reflexivity)) as [H _].
  rewrite H. vm_compute. reflexivity.
Defined.

(** C8, as stated, fails: [TKN] sits on the token1 side of a pool whose raw
    price is 0; the answer is 0, not the inverse of the raw price, which is
    infinite. *)
Lemma computeSpotPrice_zero_not_inverted :
  ¬ (fst (computeSpotPrice hostPow cache1 registryOf 1 TKN 1)
     = Returned (Some (1 / adjustedRawPrice hostPow (mkPoolState USDC TKN 0)
                             (decimalsOf cache1 USDC) (decimalsOf cache1 TKN))%float)).
Proof.
  intros H.
  apply (f_equal (λ answer, match answer with
                            | Returned (Some price) => Prim2SF price
                            | _ => S754_nan
                            end)) in H.
  vm_compute in H. discriminate.
Qed.

Lemma TwoHop_registryOf : TwoHop registryOf 1.
Proof.
  intros token routes route Hroutes Hin Hns routes' route' Hroutes' Hin'.
  change (pricingRoutes (registryOf 1)) with (pricingRoutes registry1) in *.
  unfold registry1 in Hroutes. cbn [pricingRoutes list_to_map foldr] in Hroutes.
  rewrite !lookup_insert, lookup_empty in Hroutes.
  repeat case_decide; try discriminate;
    injection Hroutes as <-; apply list_elem_of_singleton in Hin as ->;
    try (vm_compute in Hns; discriminate).
  vm_compute in Hroutes'. injection Hroutes' as <-.
  apply list_elem_of_singleton in Hin' as ->. vm_compute. reflexivity.
Defined.

Lemma computeSpotPrice_two_hop_terminates_witness :
  fst (computeSpotPrice hostPow cache1 registryOf 5 ALT 1)
  = fst (computeSpotPrice hostPow cache1 registryOf 2 ALT 1)
  ∧ fst (computeSpotPrice hostPow cache1 registryOf 2 ALT 1)
    = Returned (Some 625%float).
Proof.
  destruct (computeSpotPrice_two_hop_terminates hostPow cache1 registryOf 1 ALT 5
              TwoHop_registryOf) as (_ & Hsame & _); [lia|].
  split; [exact Hsame|]. vm_compute. reflexivity.
Defined.

Lemma computeSpotPrice_zero_raw_price_witness :
  fst (computeSpotPrice hostPow cache1 registryOf 1 TKN 1) = Returned (Some 0%float).
Proof.
  pose proof (computeSpotPrice_zero_raw_price hostPow cache1 registryOf 0 TKN 1
                [mkRoute "0xpool-usdc-tkn" USDC] (mkRoute "0xpool-usdc-tkn" USDC)
                (mkPoolState USDC TKN 0)
                ltac:(vm_compute; reflexivity) ltac:(vm_compute; reflexivity)
                ltac:(vm_compute; reflexivity) ltac:(vm_compute; reflexivity)
                ltac:(vm_compute; reflexivity) ltac:(vm_compute; reflexivity))
    as (_ & H & _).
  apply H. vm_compute. reflexivity.
Defined.

(** Without the two-hop maximum nothing bounds the recursion: two tokens
    that each name the other as base, over a cached pool, exhaust any fuel. *)
Definition cyclicRegistry (_ : Z) : PoolRegistry :=
  mkPoolRegistry (list_to_map [
    (TKN, [mkRoute "0xpool-tkn-alt" ALT]);
    (ALT, [mkRoute "0xpool-tkn-alt" TKN])
  ]).

Definition cyclicCache : SharedStateCache :=
  mkSharedStateCache {[ "0xpool-tkn-alt" := mkPoolState TKN ALT (2 ^ 96) ]} ∅.

Lemma computeSpotPrice_cycle (fuel : nat) :
  fst (computeSpotPrice hostPow cyclicCache cyclicRegistry fuel TKN 1) = OutOfFuel
  ∧ fst (computeSpotPrice hostPow cyclicCache cyclicRegistry fuel ALT 1) = OutOfFuel.
Proof.
  assert (∀ token other,
            (token = TKN ∧ other = ALT) ∨ (token = ALT ∧ other = TKN) →
            ∀ self, fst (self other 1%Z) = OutOfFuel →
            fst (computeSpotPriceBody hostPow cyclicCache cyclicRegistry self token 1)
            = OutOfFuel) as Hstep.
  { intros token other Hcase self Hself.
    rewrite computeSpotPriceBody_answer
      by (destruct Hcase as [[-> _]|[-> _]]; vm_compute; reflexivity).
    assert (pricingRoutes (cyclicRegistry 1) !! toLowerCase token
            = Some [mkRoute "0xpool-tkn-alt" other]) as ->
      by (destruct Hcase as [[-> ->]|[-> ->]]; vm_compute; reflexivity).
    assert (bestRouteOf cyclicCache 1 [mkRoute "0xpool-tkn-alt" other]
            = Some (mkRoute "0xpool-tkn-alt" other)) as ->
      by (destruct Hcase as [[-> ->]|[-> ->]]; vm_compute; reflexivity).
    cbn [pool base].
    assert (poolStateStore cyclicCache !! "0xpool-tkn-alt"
            = Some (mkPoolState TKN ALT (2 ^ 96))) as -> by (vm_compute; reflexivity).
    assert (isUsdStablecoin other 1 = false) as ->
      by (destruct Hcase as [[-> ->]|[-> ->]]; vm_compute; reflexivity).
    cbv zeta. by rewrite Hself. }
  induction fuel as [|fuel [IHt IHa]]; [by split|].
  cbn [computeSpotPrice]. split.
  - apply (Hstep TKN ALT); [by left|done].
  - apply (Hstep ALT TKN); [by right|done].
Qed.

End Pricing.

(** ** Dispatching the batches of a cycle *)

Module Dispatch.
Import Batching.

Section DistributeBatches.
Context {Batch Provider : Type} `{EqDecision Provider}.

(** One iteration of [for (batch in batches)] in [distributeBatches]:
    [provider = providers[providerIndex % providers.length]], then
    [execute(batch, provider)] and [providerIndex++]. With no provider the
    index is [NaN] and the provider [undefined]. *)
Definition distributeStep (providers : list Provider)
    (acc : nat * list (Batch * option Provider)) (batch : Batch) :
    nat * list (Batch * option Provider) :=
  let '(providerIndex, executed) := acc in
  (S providerIndex,
   executed ++ [(batch, providers !! (providerIndex mod length providers)%nat)]).

(** [distributeBatches]: the calls of [execute] it makes, in order. *)
Definition distributeBatches (providers : list Provider) (batches : list Batch) :
    list (Batch * option Provider) :=
  snd (fold_left (distributeStep providers) batches (O, [])).

(** How many batches a provider was handed. *)
Definition load (p : Provider) (executed : list (Batch * option Provider)) : nat :=
  length (filter (λ call, snd call = Some p) executed).

Lemma distributeBatches_fold providers batches start executed :
  fold_left (distributeStep providers) batches (start, executed)
  = ((start + length batches)%nat,
     executed ++ imap (λ i batch,
                         (batch, providers !! ((start + i) mod length providers)%nat))
                      batches).
Proof.
  revert start executed. induction batches as [|b batches IH]; intros start executed.
  - simpl. by rewrite Nat.add_0_r, app_nil_r.
  - cbn [fold_left distributeStep]. rewrite IH. simpl length.
    f_equal; [lia|]. rewrite <- app_assoc. f_equal. cbn [imap app].
    rewrite Nat.add_0_r. f_equal. apply imap_ext. intros i x _. simpl.
    do 3 f_equal. lia.
Qed.

Lemma distributeBatches_imap providers batches :
  distributeBatches providers batches
  = imap (λ i batch, (batch, providers !! (i mod length providers)%nat)) batches.
Proof. unfold distributeBatches. by rewrite distributeBatches_fold. Qed.

(** The indices below [m] that fall on slot [j] of [n]. *)
Lemma count_slot (n m j : nat) :
  (j < n)%nat →
  length (filter (λ i, (i mod n)%nat = j) (seq 0 m))
  = ((m / n) + (if decide (j < m mod n)%nat then 1 else 0))%nat.
Proof.
  intros Hj. induction m as [|m IH].
  - simpl. rewrite Nat.Div0.div_0_l, Nat.Div0.mod_0_l. by rewrite decide_False by lia.
  - rewrite seq_S, filter_app, length_app, IH. change (0 + m)%nat with m. clear IH.
    pose proof (Nat.div_mod_eq m n) as Hm.
    pose proof (Nat.mod_upper_bound m n ltac:(lia)) as Hr.
    destruct (decide (S (m mod n) < n)%nat) as [Hlt|Hge].
    + assert (S m / n = m / n)%nat as ->
        by (symmetry; apply (Nat.div_unique _ _ _ (S (m mod n))); lia).
      assert (S m mod n = S (m mod n))%nat as ->
        by (symmetry; apply (Nat.mod_unique _ _ (m / n)); lia).
      rewrite filter_cons, filter_nil.
      repeat case_decide; simpl; lia.
    + assert (S m / n = S (m / n))%nat as ->
        by (symmetry; apply (Nat.div_unique _ _ _ 0); lia).
      assert (S m mod n = 0)%nat as ->
        by (symmetry; apply (Nat.mod_unique _ _ (S (m / n))); lia).
      rewrite filter_cons, filter_nil.
      repeat case_decide; simpl; lia.
Qed.

Lemma load_imap providers (batches : list Batch) p j :
  NoDup providers → providers !! j = Some p →
  load p (imap (λ i batch, (batch, providers !! (i mod length providers)%nat)) batches)
  = length (filter (λ i, (i mod length providers)%nat = j) (seq 0 (length batches))).
Proof.
  intros Hnd Hp. unfold load.
  assert (∀ start,
            length (filter (λ call : Batch * option Provider, snd call = Some p)
                      (imap (λ i batch,
                               (batch, providers !! ((start + i) mod length providers)%nat))
                            batches))
            = length (filter (λ i, (i mod length providers)%nat = j)
                             (seq start (length batches)))) as H.
  { induction batches as [|b batches IH]; intros start; [done|].
    cbn [imap length seq]. rewrite !filter_cons. simpl snd. rewrite Nat.add_0_r.
    assert (length (filter (λ call : Batch * option Provider, snd call = Some p)
                      (imap ((λ i batch,
                                (batch, providers !! ((start + i) mod length providers)%nat))
                             ∘ S) batches))
            = length (filter (λ i, (i mod length providers)%nat = j)
                             (seq (S start) (length batches)))) as Hrest.
    { rewrite <- IH. do 2 f_equal. apply imap_ext. intros i x _. simpl.
      do 3 f_equal. lia. }
    assert (providers !! (start mod length providers)%nat = Some p
            ↔ (start mod length providers)%nat = j) as Hiff.
    { split; [|by intros ->]. intros Hs. by apply (NoDup_lookup providers _ _ p). }
    repeat case_decide; simpl; rewrite ?Hrest; try done; tauto. }
  specialize (H O). simpl in H. exact H.
Qed.

(** X1. Round-robin dispatch: every batch is executed exactly once, in
    order, the [i]-th on provider [i mod n]; and over distinct providers no
    provider is handed more than one batch more than any other. *)
Theorem distributeBatches_round_robin (providers : list Provider)
    (batches : list Batch) :
  map fst (distributeBatches providers batches) = batches
  ∧ (∀ i batch, batches !! i = Some batch →
       distributeBatches providers batches !! i
       = Some (batch, providers !! (i mod length providers)%nat))
  ∧ (NoDup providers →
     ∀ p q, p ∈ providers → q ∈ providers →
       (load p (distributeBatches providers batches)
        ≤ load q (distributeBatches providers batches) + 1)%nat).
Proof.
  rewrite distributeBatches_imap. split; [|split].
  - assert (∀ g : nat → option Provider,
              map fst (imap (λ i (batch : Batch), (batch, g i)) batches) = batches) as H.
    { induction batches as [|b batches IH]; intros g; [done|].
      cbn [imap map fst]. f_equal. apply (IH (g ∘ S)). }
    apply H.
  - intros i batch Hi. rewrite list_lookup_imap, Hi. done.
  - intros Hnd p q [j Hj]%list_elem_of_lookup [k Hk]%list_elem_of_lookup.
    rewrite (load_imap providers batches p j Hnd Hj).
    rewrite (load_imap providers batches q k Hnd Hk).
    apply lookup_lt_Some in Hj, Hk.
    rewrite !count_slot by done. repeat case_decide; lia.
Qed.
End DistributeBatches.

Lemma distributeBatches_round_robin_witness :
  load "rpc-b" (distributeBatches ["rpc-a"; "rpc-b"; "rpc-c"] [1; 2; 3; 4; 5; 6; 7]%nat)
  ≤ load "rpc-c" (distributeBatches ["rpc-a"; "rpc-b"; "rpc-c"] [1; 2; 3; 4; 5; 6; 7]%nat) + 1.
Proof.
  destruct (distributeBatches_round_robin ["rpc-a"; "rpc-b"; "rpc-c"]
              [1; 2; 3; 4; 5; 6; 7]%nat) as (_ & _ & H).
  apply H.
  - compute_done.
  - apply elem_of_cons. right. apply elem_of_cons. by left.
  - apply elem_of_cons. right. apply elem_of_cons. right. apply elem_of_cons. by left.
Defined.

Section ExecutionLoop.
Context {Provider : Type}.
(** The pool registry's [dexType] of a tracked pool. *)
Variable dexType : AlivePool → DexType.
Variable MAX_WEIGHT : Z.

(** One turn of [executionLoop] at time [now] over the tracked pools: the
    pools whose [nextRefresh] has come are batched by weight and the batches
    dispatched round-robin; the calls of [execute] it makes. *)
Definition executionLoop (now : Z) (providers : list Provider)
    (aliveSet : list AlivePool) : list (list AlivePool * option Provider) :=
  let poolsDue := filter (λ p, (nextRefresh p ≤ now)%Z) aliveSet in
  if (0 <? length poolsDue)%nat
  then distributeBatches providers (createBatches dexType MAX_WEIGHT poolsDue)
  else [].

Lemma createBatches_concat (pools : list AlivePool) :
  concat (createBatches dexType MAX_WEIGHT pools) = pools.
Proof.
  pose proof (Inv_fold dexType MAX_WEIGHT pools [] _ (Inv_init dexType MAX_WEIGHT))
    as [Hc _ _ _]. simpl in Hc.
  destruct (createBatches_cases dexType MAX_WEIGHT pools) as [[Hnil ->]|[Hne ->]].
  - by rewrite Hnil, app_nil_r in Hc.
  - rewrite concat_app. simpl. by rewrite app_nil_r.
Qed.

Lemma createBatches_bounded (pools : list AlivePool) :
  (2 ≤ MAX_WEIGHT)%Z →
  Forall (λ b, b ≠ [] ∧ (batchWeight dexType b ≤ MAX_WEIGHT)%Z)
         (createBatches dexType MAX_WEIGHT pools).
Proof.
  intros Hmax.
  pose proof (Inv_fold dexType MAX_WEIGHT pools [] _ (Inv_init dexType MAX_WEIGHT))
    as [_ _ _ Hb]. simpl in Hb.
  destruct Hb as [Hclosed Hopen].
  { intros p _. unfold poolWeight. destruct (dexType p); lia. }
  destruct (createBatches_cases dexType MAX_WEIGHT pools) as [[Hnil ->]|[Hne ->]];
    [done|].
  apply Forall_app. split; [done|].
  apply Forall_cons_2; [|apply Forall_nil_2]. by destruct Hopen.
Qed.

(** X2. One turn of the execution loop dispatches every pool that is due
    exactly once, in the order of the alive set, and no pool that is not
    due; with a ceiling of at least 2 no dispatched batch is empty or heavier
    than the ceiling. *)
Theorem executionLoop_dispatches_due (now : Z) (providers : list Provider)
    (aliveSet : list AlivePool) :
  concat (map fst (executionLoop now providers aliveSet))
  = filter (λ p, (nextRefresh p ≤ now)%Z) aliveSet
  ∧ ((2 ≤ MAX_WEIGHT)%Z →
     Forall (λ call, fst call ≠ [] ∧ (batchWeight dexType (fst call) ≤ MAX_WEIGHT)%Z)
            (executionLoop now providers aliveSet)).
Proof.
  unfold executionLoop.
  set (poolsDue := filter (λ p, (nextRefresh p ≤ now)%Z) aliveSet).
  assert (map fst (distributeBatches providers (createBatches dexType MAX_WEIGHT poolsDue))
          = createBatches dexType MAX_WEIGHT poolsDue) as Hfst.
  { rewrite distributeBatches_imap.
    generalize (createBatches dexType MAX_WEIGHT poolsDue). intros batches.
    assert (∀ g : nat → option Provider,
              map fst (imap (λ i (batch : list AlivePool), (batch, g i)) batches)
              = batches) as H.
    { induction batches as [|b batches IH]; intros g; [done|].
      cbn [imap map fst]. f_equal. apply (IH (g ∘ S)). }
    apply H. }
  destruct poolsDue as [|p poolsDue'] eqn:E.
  - split; [done|]. intros _. apply Forall_nil_2.
  - change (0 <? length (p :: poolsDue'))%nat with true. cbv iota. split.
    + by rewrite Hfst, createBatches_concat.
    + intros Hmax.
      pose proof (createBatches_bounded (p :: poolsDue') Hmax) as Hb.
      rewrite <- Hfst in Hb. by apply Forall_fmap in Hb.
Qed.
End ExecutionLoop.

Definition duePool : AlivePool := mkAlivePool "0xaaa" 1 high 900 10 1%float 1 0.
Definition latePool : AlivePool := mkAlivePool "0xbbb" 1 low 2000 10 1%float 1 0.

Lemma executionLoop_dispatches_due_witness :
  Forall (λ call : list AlivePool * option string,
            fst call ≠ [] ∧ (batchWeight (λ _, v3) (fst call) ≤ 2)%Z)
         (executionLoop (λ _, v3) 2 1000 ["rpc-a"] [duePool; latePool; duePool]).
Proof.
  apply (executionLoop_dispatches_due (λ _, v3) 2 1000 ["rpc-a"]
           [duePool; latePool; duePool]).
  lia.
Defined.

End Dispatch.

(** ** Result processing: what a call writes, and what it leaves *)

Module Refresh.
Import Scheduler.
Local Open Scope Z_scope.

Section ProcessMulticallResults.
Variable computePrice : MulticallResult → float.

(** A result that cannot be processed: its pool is not in the alive set, or
    its block is the one last seen while the cache holds no entry to extend. *)
Definition Unprocessable (e : Engine) (r : MulticallResult) : Prop :=
  aliveSet e !! poolAddress r = None
  ∨ ∃ pool, aliveSet e !! poolAddress r = Some pool
            ∧ blockNumber r = lastBlockSeen pool
            ∧ cache e !! poolAddress r = None.

Lemma processResult_Unprocessable now e r :
  Unprocessable e r → processResult computePrice now e r = Threw e.
Proof.
  unfold processResult. intros [->|(pool & -> & Hb & Hc)]; [done|].
  apply Z.eqb_eq in Hb. by rewrite Hb, Hc.
Qed.

Lemma processResults_app now before after e :
  processResults computePrice now (before ++ after) e
  = match processResults computePrice now before e with
    | Done e1 => processResults computePrice now after e1
    | Threw e1 => Threw e1
    end.
Proof.
  revert e. induction before as [|r before IH]; intros e; simpl; [done|].
  destruct (processResult computePrice now e r); [apply IH|done].
Qed.

(** The engine the loop starts from: the fresh tick is current. *)
Definition ticked (e : Engine) : Engine :=
  mkEngine (aliveSet e) (cache e) (ticksIssued e + 1)%N (ticksIssued e + 1)%N.

Lemma processMulticallResults_ticked now results e :
  processMulticallResults computePrice now results e
  = processResults computePrice now results (ticked e).
Proof. reflexivity. Qed.

(** X3. A result that cannot be processed cuts [processMulticallResults]
    short: the results before it have been applied, it and the results after
    it are not, and the call ends in the error. *)
Theorem processMulticallResults_aborts (now : Z) (before after : list MulticallResult)
    (r : MulticallResult) (e e1 : Engine) :
  processMulticallResults computePrice now before e = Done e1 →
  Unprocessable e1 r →
  processMulticallResults computePrice now (before ++ r :: after) e = Threw e1.
Proof.
  rewrite !processMulticallResults_ticked.
  intros Hbefore Hr. rewrite processResults_app, Hbefore. cbn [processResults].
  by rewrite processResult_Unprocessable.
Qed.

(** One result leaves every other pool, the tick and the tick counter alone. *)
Lemma processResult_frame now e r :
  let e' := stateOf (processResult computePrice now e r) in
  currentTickId e' = currentTickId e ∧ ticksIssued e' = ticksIssued e
  ∧ ∀ addr, addr ≠ poolAddress r →
      cache e' !! addr = cache e !! addr ∧ aliveSet e' !! addr = aliveSet e !! addr.
Proof.
  unfold processResult.
  destruct (aliveSet e !! poolAddress r) as [pool|]; [|done].
  destruct (blockNumber r =? lastBlockSeen pool).
  - destruct (cache e !! poolAddress r) as [entry|]; [|done]. simpl.
    split; [done|]. split; [done|]. intros addr Hne. by rewrite lookup_insert_ne.
  - destruct (tierOf _) as [t delay]. simpl.
    split; [done|]. split; [done|]. intros addr Hne. by rewrite !lookup_insert_ne.
Qed.

Lemma processResults_frame now results e addr :
  addr ∉ map poolAddress results →
  let e' := stateOf (processResults computePrice now results e) in
  cache e' !! addr = cache e !! addr ∧ aliveSet e' !! addr = aliveSet e !! addr.
Proof.
  revert e. induction results as [|r results IH]; intros e Hnot; simpl; [done|].
  apply not_elem_of_cons in Hnot as [Hne Hnot].
  destruct (processResult_frame now e r) as (_ & _ & Hframe).
  destruct (processResult computePrice now e r) as [e1|e1] eqn:E; simpl in *.
  - destruct (IH e1 Hnot) as [-> ->]. by apply Hframe.
  - by apply Hframe.
Qed.

(** X4. [processMulticallResults] touches nothing of a pool that none of
    its results names: its cache entry and its [AlivePool] are as before,
    whether the call ends normally or in an error. *)
Theorem processMulticallResults_frame (now : Z) (results : list MulticallResult)
    (e : Engine) (addr : string) :
  addr ∉ map poolAddress results →
  cache (stateOf (processMulticallResults computePrice now results e)) !! addr
  = cache e !! addr
  ∧ aliveSet (stateOf (processMulticallResults computePrice now results e)) !! addr
    = aliveSet e !! addr.
Proof.
  intros Hnot. rewrite processMulticallResults_ticked.
  apply (processResults_frame now results (ticked e) addr Hnot).
Qed.

(** An entry is stamped with tick [tick], or is an entry of [before] whose
    expiry alone may have moved. *)
Definition StampedOrExtended (tick : N) (before : gmap string CacheEntry)
    (addr : string) (entry' : CacheEntry) : Prop :=
  ce_tickId entry' = tick
  ∨ ∃ entry, before !! addr = Some entry
             ∧ ce_tickId entry' = ce_tickId entry
             ∧ ce_blockNumber entry' = ce_blockNumber entry
             ∧ ce_price entry' = ce_price entry
             ∧ ce_timestamp entry' = ce_timestamp entry.

Lemma processResults_stamps now results e before :
  (∀ addr entry', cache e !! addr = Some entry' →
     StampedOrExtended (currentTickId e) before addr entry') →
  ∀ addr entry',
    cache (stateOf (processResults computePrice now results e)) !! addr = Some entry' →
    StampedOrExtended (currentTickId e) before addr entry'.
Proof.
  revert e. induction results as [|r results IH]; intros e Hinv; simpl; [done|].
  destruct (processResult_frame now e r) as (Htick & _ & _).
  assert (∀ addr entry',
            cache (stateOf (processResult computePrice now e r)) !! addr = Some entry' →
            StampedOrExtended (currentTickId e) before addr entry') as Hstep.
  { unfold processResult.
    destruct (aliveSet e !! poolAddress r) as [pool|]; [|done].
    destruct (blockNumber r =? lastBlockSeen pool).
    - destruct (cache e !! poolAddress r) as [entry|] eqn:Hentry; [|done]. simpl.
      intros addr entry'. rewrite lookup_insert. case_decide as Ha; [|apply Hinv].
      intros [= <-]. subst addr.
      destruct (Hinv _ _ Hentry) as [Ht|(entry0 & H0 & Ht & Hb & Hp & Hs)].
      + by left.
      + right. by exists entry0.
    - destruct (tierOf _) as [t delay]. simpl.
      intros addr entry'. rewrite lookup_insert. case_decide as Ha; [|apply Hinv].
      intros [= <-]. by left. }
  destruct (processResult computePrice now e r) as [e1|e1] eqn:E; simpl in *.
  - rewrite <- Htick. apply IH. by rewrite Htick.
  - done.
Qed.

(** X5. After a call of [processMulticallResults], every cache entry either
    carries the tick that call issued, or is an entry from before the call
    with the same tick, block number, price and timestamp: a call never
    stamps two entries with different new ticks, and a TTL extension never
    alters what was observed. *)
Theorem processMulticallResults_stamps (now : Z) (results : list MulticallResult)
    (e : Engine) (addr : string) (entry' : CacheEntry) :
  cache (stateOf (processMulticallResults computePrice now results e)) !! addr
  = Some entry' →
  StampedOrExtended (ticksIssued e + 1)%N (cache e) addr entry'.
Proof.
  rewrite processMulticallResults_ticked.
  apply (processResults_stamps now results (ticked e) (cache e)).
  intros a c Hc. right. by exists c.
Qed.

(** X6. Refreshing a tracked pool twice with the same block number: the
    first call, the block being new, stores the result under its tick; the
    second only extends the expiry — price, block number, tick and
    timestamp are those of the first call, and the pool's schedule is not
    touched again. *)
Theorem processMulticallResults_same_block_twice (now1 now2 : Z)
    (r : MulticallResult) (e : Engine) (pool : AlivePool) :
  aliveSet e !! poolAddress r = Some pool →
  blockNumber r ≠ lastBlockSeen pool →
  ∃ e1 e2,
    processMulticallResults computePrice now1 [r] e = Done e1
    ∧ processMulticallResults computePrice now2 [r] e1 = Done e2
    ∧ cache e2 !! poolAddress r
      = Some (set_ttl (now2 + seconds 30)
                      (freshEntry computePrice now1 (ticksIssued e + 1)%N r))
    ∧ aliveSet e2 = aliveSet e1.
Proof.
  intros Hpool Hne. apply Z.eqb_neq in Hne.
  rewrite processMulticallResults_ticked. cbn [processResults].
  unfold processResult at 1. unfold ticked at 1 2 3.
  cbn [aliveSet cache currentTickId ticksIssued].
  rewrite Hpool, Hne. destruct (tierOf _) as [t delay]. eexists. eexists.
  split; [reflexivity|].
  rewrite processMulticallResults_ticked. cbn [processResults].
  unfold processResult, ticked. cbn [aliveSet cache currentTickId ticksIssued].
  rewrite !lookup_insert_eq. cbn [lastBlockSeen set_refreshed].
  rewrite Z.eqb_refl. split; [reflexivity|]. cbn [cache aliveSet set_cache].
  by rewrite lookup_insert_eq.
Qed.

(** *** The first refresh of a new pool *)

Lemma positive_finite (p : float) :
  (0 <? p)%float = true → (p <? infinity)%float = true →
  ∃ m e, Prim2SF p = S754_finite false m e.
Proof.
  rewrite !ltb_spec. change (Prim2SF 0%float) with (S754_zero false).
  change (Prim2SF infinity) with (S754_infinity false).
  destruct (Prim2SF p) as [[]|[]| |[] m e]; cbn; intros H1 H2;
    try discriminate H1; try discriminate H2. eauto.
Qed.

Lemma first_priceDelta (p : float) :
  (0 <? p)%float = true → (p <? infinity)%float = true →
  (0.05 <? PrimFloat.abs (p - 0) / 0)%float = true.
Proof.
  intros H1 H2. destruct (positive_finite p H1 H2) as (m & e & Hp).
  rewrite ltb_spec, div_spec, abs_spec, sub_spec, Hp.
  change (Prim2SF 0%float) with (S754_zero false).
  cbn. vm_compute. reflexivity.
Qed.

(** X7. The first changed-block result of a pool whose [lastPrice] is still
    the initial 0: with a positive finite price the relative change is
    infinite, so the pool is put on tier [high] and is due again in 5 s; with
    a price of 0 the change is 0/0, every threshold test fails, and the pool
    goes to tier [low], due in 30 s. *)
Theorem processResult_first_refresh (now : Z) (e : Engine) (r : MulticallResult)
    (pool : AlivePool) :
  aliveSet e !! poolAddress r = Some pool →
  blockNumber r ≠ lastBlockSeen pool →
  lastPrice pool = 0%float →
  ((0 <? computePrice r)%float = true → (computePrice r <? infinity)%float = true →
   ∃ e' pool', processResult computePrice now e r = Done e'
               ∧ aliveSet e' !! poolAddress r = Some pool'
               ∧ tier pool' = high ∧ nextRefresh pool' = now + seconds 5)
  ∧ (computePrice r = 0%float →
     ∃ e' pool', processResult computePrice now e r = Done e'
                 ∧ aliveSet e' !! poolAddress r = Some pool'
                 ∧ tier pool' = low ∧ nextRefresh pool' = now + seconds 30).
Proof.
  intros Hpool Hne Hlast. apply Z.eqb_neq in Hne.
  unfold processResult. rewrite Hpool, Hne, Hlast. split.
  - intros H1 H2. unfold tierOf. rewrite (first_priceDelta _ H1 H2).
    eexists. eexists. split; [reflexivity|]. cbn [aliveSet].
    by rewrite lookup_insert_eq.
  - intros ->. eexists. eexists. split; [reflexivity|]. cbn [aliveSet].
    by rewrite lookup_insert_eq.
Qed.
End ProcessMulticallResults.

Definition newPool : AlivePool := mkAlivePool "0xnew" 1 high 5000 0 0%float 1 0.

Definition engineNew : Engine :=
  mkEngine {[ "0xnew" := newPool ]} ∅ 0 0.

Lemma processMulticallResults_aborts_witness :
  processMulticallResults fixedPrice 1000
    ([mkResult "0xaaa" true 11 0] ++ mkResult "0xgone" true 11 0
       :: [mkResult "0xbbb" true 11 0]) engine0
  = Threw (stateOf (processMulticallResults fixedPrice 1000
                      [mkResult "0xaaa" true 11 0] engine0)).
Proof.
  apply (processMulticallResults_aborts fixedPrice 1000 [mkResult "0xaaa" true 11 0]).
  - reflexivity.
  - left. reflexivity.
Defined.

Lemma processMulticallResults_frame_witness :
  cache (stateOf (processMulticallResults fixedPrice 1000
                    [mkResult "0xaaa" true 11 0] engine0)) !! "0xbbb"
  = cache engine0 !! "0xbbb".
Proof.
  apply (processMulticallResults_frame fixedPrice 1000 [mkResult "0xaaa" true 11 0]
           engine0 "0xbbb").
  intros Hin. apply list_elem_of_singleton in Hin. discriminate.
Defined.

Lemma processMulticallResults_stamps_witness :
  StampedOrExtended 1 (cache engine0) "0xaaa"
    (freshEntry fixedPrice 1000 1 (mkResult "0xaaa" true 11 0)).
Proof.
  apply (processMulticallResults_stamps fixedPrice 1000 [mkResult "0xaaa" true 11 0]
           engine0 "0xaaa").
  reflexivity.
Defined.

Lemma processMulticallResults_same_block_twice_witness :
  ∃ e1 e2,
    processMulticallResults fixedPrice 1000 [mkResult "0xaaa" true 11 0] engine0 = Done e1
    ∧ processMulticallResults fixedPrice 4000 [mkResult "0xaaa" true 11 0] e1 = Done e2
    ∧ ce_tickId <$> cache e2 !! "0xaaa" = Some 1%N.
Proof.
  destruct (processMulticallResults_same_block_twice fixedPrice 1000 4000
              (mkResult "0xaaa" true 11 0) engine0 poolA)
    as (e1 & e2 & H1 & H2 & Hc & _); [reflexivity|simpl; lia|].
  exists e1, e2. split; [exact H1|]. split; [exact H2|].
  simpl in Hc. rewrite Hc. reflexivity.
Defined.

Lemma processResult_first_refresh_witness :
  ∃ e' pool', processResult fixedPrice 1000 engineNew (mkResult "0xnew" true 7 0) = Done e'
              ∧ aliveSet e' !! "0xnew" = Some pool'
              ∧ tier pool' = high ∧ nextRefresh pool' = 6000.
Proof.
  destruct (processResult_first_refresh fixedPrice 1000 engineNew
              (mkResult "0xnew" true 7 0) newPool) as [H _];
    [reflexivity|simpl; lia|reflexivity|].
  apply H; vm_compute; reflexivity.
Defined.

End Refresh.

(** ** Reading prices of one tick *)

#[local] Set Warnings "-clear-no-such-hyp".

Module Consistency.
Local Open Scope Z_scope.

(** The loop state of [getConsistentPrices]: [results] and [tickIds]. *)
Abbreviation Collected := (list CacheEntry * gset N)%type.

(** The body of the inner loop: [null] for a missing or expired entry,
    otherwise the entry is pushed and its tick added. *)
Definition visit (now : Z) (cache : gmap string CacheEntry) (acc : Collected)
    (poolAddress : string) : option Collected :=
  match cache !! poolAddress with
  | None => None
  | Some entry =>
    if ce_ttl entry <? now then None
    else Some (fst acc ++ [entry], {[ ce_tickId entry ]} ∪ snd acc)
  end.

(** [for (poolAddress in token.metadata.pricingRoutes)] *)
Fixpoint visitRoutes (now : Z) (cache : gmap string CacheEntry)
    (pricingRoutes : list string) (acc : Collected) : option Collected :=
  match pricingRoutes with
  | [] => Some acc
  | poolAddress :: rest =>
    match visit now cache acc poolAddress with
    | None => None
    | Some acc' => visitRoutes now cache rest acc'
    end
  end.

(** [for (token in tokens)], a token being given by its [pricingRoutes]. *)
Fixpoint visitTokens (now : Z) (cache : gmap string CacheEntry)
    (tokens : list (list string)) (acc : Collected) : option Collected :=
  match tokens with
  | [] => Some acc
  | pricingRoutes :: rest =>
    match visitRoutes now cache pricingRoutes acc with
    | None => None
    | Some acc' => visitTokens now cache rest acc'
    end
  end.

(** [getConsistentPrices] of plan Phase 6. *)
Definition getConsistentPrices (now : Z) (cache : gmap string CacheEntry)
    (tokens : list (list string)) : option (list CacheEntry) :=
  match visitTokens now cache tokens ([], ∅) with
  | None => None
  | Some (results, tickIds) =>
    if (1 <? size tickIds)%nat then None else Some results
  end.

(** What a successful walk over some routes has collected. *)
Definition Walked (now : Z) (cache : gmap string CacheEntry) (routes : list string)
    (acc acc' : Collected) : Prop :=
  ∃ entries,
    Forall2 (λ poolAddress entry, cache !! poolAddress = Some entry) routes entries
    ∧ Forall (λ entry, now ≤ ce_ttl entry) entries
    ∧ fst acc' = fst acc ++ entries
    ∧ snd acc' = list_to_set (map ce_tickId entries) ∪ snd acc.

Lemma visitRoutes_Walked now cache routes acc acc' :
  visitRoutes now cache routes acc = Some acc' ↔ Walked now cache routes acc acc'.
Proof.
  revert acc. induction routes as [|a routes IH]; intros acc; simpl.
  - split.
    + intros [= <-]. exists []. split; [constructor|]. split; [constructor|].
      split; [by rewrite app_nil_r|]. set_solver.
    + intros (entries & ->%Forall2_nil_inv_l & _ & H1 & H2).
      rewrite app_nil_r in H1. f_equal. destruct acc, acc'. simpl in *.
      subst. f_equal. set_solver.
  - unfold visit. destruct (cache !! a) as [entry|] eqn:Ha.
    2:{ split; [done|]. intros (entries & (y & k & Hy & _)%Forall2_cons_inv_l & _).
        congruence. }
    destruct (Z.ltb_spec (ce_ttl entry) now) as [Hstale|Hfresh].
    { split; [done|].
      intros (entries & (y & k & Hy & _ & ->)%Forall2_cons_inv_l & Hf & _).
      apply Forall_cons in Hf as [Hf _]. assert (y = entry) as -> by congruence. lia. }
    rewrite IH. split.
    + intros (entries & Hall & Hf & H1 & H2). exists (entry :: entries). simpl in *.
      split; [by constructor|]. split; [by constructor|].
      split; [by rewrite H1, <- app_assoc|]. rewrite H2. set_solver.
    + intros (entries & (y & k & Hy & Hk & ->)%Forall2_cons_inv_l & Hf & H1 & H2).
      assert (y = entry) as -> by congruence.
      apply Forall_cons in Hf as [_ Hf]. exists k. simpl in *.
      split; [done|]. split; [done|]. split; [by rewrite H1, <- app_assoc|].
      rewrite H2. set_solver.
Qed.

Lemma visitTokens_Walked now cache tokens acc acc' :
  visitTokens now cache tokens acc = Some acc' ↔ Walked now cache (concat tokens) acc acc'.
Proof.
  revert acc. induction tokens as [|routes tokens IH]; intros acc; simpl.
  - apply (visitRoutes_Walked now cache [] acc acc').
  - destruct (visitRoutes now cache routes acc) as [acc1|] eqn:E.
    + apply visitRoutes_Walked in E as (entries1 & Hall1 & Hf1 & H1 & H2).
      rewrite IH. split.
      * intros (entries & Hall & Hf & H3 & H4). exists (entries1 ++ entries).
        split; [by apply Forall2_app|]. split; [by apply Forall_app|].
        split; [by rewrite H3, H1, app_assoc|].
        rewrite H4, H2, map_app, list_to_set_app_L. set_solver.
      * intros (entries & (k1 & k2 & Hk1 & Hk2 & ->)%Forall2_app_inv_l & Hf & H3 & H4).
        assert (k1 = entries1) as ->.
        { clear -Hk1 Hall1. revert k1 Hk1. induction Hall1; intros k1 Hk1.
          - by apply Forall2_nil_inv_l in Hk1.
          - apply Forall2_cons_inv_l in Hk1 as (y' & k' & Hy' & Hk' & ->).
            f_equal; [congruence|]. by apply IHHall1. }
        apply Forall_app in Hf as [_ Hf]. exists k2.
        split; [done|]. split; [done|]. split; [by rewrite H3, H1, app_assoc|].
        rewrite H4, H2, map_app, list_to_set_app_L. set_solver.
    + split; [done|].
      intros (entries & (k1 & k2 & Hk1 & Hk2 & ->)%Forall2_app_inv_l & Hf & H3 & H4).
      apply Forall_app in Hf as [Hf1 _].
      assert (Walked now cache routes acc (fst acc ++ k1,
                                            list_to_set (map ce_tickId k1) ∪ snd acc))
        as Hw by (by exists k1).
      apply visitRoutes_Walked in Hw. congruence.
Qed.

Lemma size_at_most_one (ticks : list N) :
  (size (list_to_set ticks : gset N) ≤ 1)%nat ↔ ∀ t1 t2, t1 ∈ ticks → t2 ∈ ticks → t1 = t2.
Proof.
  split.
  - intros Hsize t1 t2 H1 H2. destruct (decide (t1 = t2)) as [|Hne]; [done|].
    assert ({[t1; t2]} ⊆ (list_to_set ticks : gset N)) as Hsub by set_solver.
    apply subseteq_size in Hsub. rewrite size_union in Hsub by set_solver.
    rewrite !size_singleton in Hsub. lia.
  - intros Hsame. destruct ticks as [|t ticks]; [by rewrite list_to_set_nil, size_empty; lia|].
    assert ((list_to_set (t :: ticks) : gset N) ⊆ {[t]}) as Hsub.
    { intros x Hx%elem_of_list_to_set. apply elem_of_singleton.
      apply Hsame; [done|by left]. }
    apply subseteq_size in Hsub. by rewrite size_singleton in Hsub.
Qed.

(** X8. [getConsistentPrices] answers with entries exactly when every
    requested route has a cache entry that has not expired and all those
    entries carry one and the same tick; the answer is then these entries in
    request order. A missing or expired entry, or two ticks among the
    requested pools, gives [null]. *)
Theorem getConsistentPrices_Some (now : Z) (cache : gmap string CacheEntry)
    (tokens : list (list string)) (results : list CacheEntry) :
  getConsistentPrices now cache tokens = Some results
  ↔ Forall2 (λ poolAddress entry, cache !! poolAddress = Some entry)
            (concat tokens) results
    ∧ Forall (λ entry, now ≤ ce_ttl entry) results
    ∧ ∀ entry1 entry2, entry1 ∈ results → entry2 ∈ results →
        ce_tickId entry1 = ce_tickId entry2.
Proof.
  unfold getConsistentPrices.
  assert (∀ entries : list CacheEntry,
            (size (list_to_set (map ce_tickId entries) ∪ ∅ : gset N) ≤ 1)%nat
            ↔ ∀ entry1 entry2, entry1 ∈ entries → entry2 ∈ entries →
                ce_tickId entry1 = ce_tickId entry2) as Hticks.
  { intros entries. rewrite (right_id_L ∅ (∪)), size_at_most_one. split.
    - intros H entry1 entry2 H1 H2.
      apply H; apply list_elem_of_fmap; eauto.
    - intros H t1 t2 (entry1 & -> & H1)%list_elem_of_fmap (entry2 & -> & H2)%list_elem_of_fmap.
      by apply H. }
  destruct (visitTokens now cache tokens ([], ∅)) as [[res ticks]|] eqn:E.
  - apply visitTokens_Walked in E as (entries & Hall & Hf & H1 & H2). simpl in *. subst.
    destruct (Nat.ltb_spec 1 (size (list_to_set (map ce_tickId entries) ∪ ∅ : gset N)))
      as [Hmany|Hone].
    + split; [done|]. intros (Hall' & _ & Hsame).
      assert (results = entries) as ->.
      { clear -Hall Hall'. revert results Hall'. induction Hall; intros results Hall'.
        - by apply Forall2_nil_inv_l in Hall'.
        - apply Forall2_cons_inv_l in Hall' as (y' & k' & Hy' & Hk' & ->).
          f_equal; [congruence|]. by apply IHHall. }
      apply Hticks in Hsame. lia.
    + split.
      * intros [= <-]. split; [done|]. split; [done|]. by apply Hticks.
      * intros (Hall' & _ & _). f_equal.
        clear -Hall Hall'. revert results Hall'. induction Hall; intros results Hall'.
        -- by apply Forall2_nil_inv_l in Hall'.
        -- apply Forall2_cons_inv_l in Hall' as (y' & k' & Hy' & Hk' & ->).
           f_equal; [congruence|]. by apply IHHall.
  - split; [done|]. intros (Hall & Hf & _).
    assert (Walked now cache (concat tokens) ([], ∅)
              ([] ++ results, list_to_set (map ce_tickId results) ∪ ∅)) as Hw
      by (by exists results).
    apply visitTokens_Walked in Hw. congruence.
Qed.

Definition tickedCache : gmap string CacheEntry :=
  <["0xaaa" := mkCacheEntry "0xaaa" 1%float 0 11 1 1000 31000]>
    (<["0xbbb" := mkCacheEntry "0xbbb" 1%float 0 11 2 1000 31000]> ∅).

Lemma getConsistentPrices_Some_witness :
  Forall (λ entry, 2000 ≤ ce_ttl entry)
         [mkCacheEntry "0xaaa" 1%float 0 11 1 1000 31000].
Proof.
  apply (getConsistentPrices_Some 2000 tickedCache [["0xaaa"]]
           [mkCacheEntry "0xaaa" 1%float 0 11 1 1000 31000]).
  reflexivity.
Defined.

(** Two pools served by different batches of one cycle are never shown
    together. *)
Example getConsistentPrices_mixed_ticks :
  getConsistentPrices 2000 tickedCache [["0xaaa"]; ["0xbbb"]] = None.
Proof. reflexivity. Qed.

End Consistency.

(** ** Liveness by last request: the pool set of the architecture plan *)

Module Liveness.
Import Registry Tracker Scheduler.
Local Open Scope Z_scope.

(** [requestedPools.add(route.pool)] on a [Set], kept in insertion order. *)
Definition setAdd (requestedPools : list string) (poolAddress : string) : list string :=
  if bool_decide (poolAddress ∈ requestedPools) then requestedPools
  else requestedPools ++ [poolAddress].

(** "Map tokens → pools": the two nested loops that fill [requestedPools]. *)
Definition requestedPoolsOf (tokens : list Token) : list string :=
  fold_left (λ requestedPools token,
               fold_left (λ requestedPools route, setAdd requestedPools (pool route))
                         (pricingPools token) requestedPools)
            tokens [].

Section HandleTokenInterest.
(** The plan's [AlivePool] has no network field; the controller serves one. *)
Variable chainId : Z.

(** The pool that enters the alive set: tier [high], due in five seconds. *)
Definition enter (now : Z) (poolAddress : string) : AlivePool :=
  mkAlivePool poolAddress chainId high (now + seconds 5) 0 0%float 1 now.

(** "Update alive set", for one requested pool. *)
Definition refreshLiveness (now : Z) (aliveSet : gmap string AlivePool)
    (poolAddress : string) : gmap string AlivePool :=
  match aliveSet !! poolAddress with
  | Some alivePool => <[poolAddress := set_lastRequestTime now alivePool]> aliveSet
  | None => <[poolAddress := enter now poolAddress]> aliveSet
  end.

(** [handleTokenInterest] of the plan's appendix ("Hot Path: Pool
    Scheduling"). *)
Definition handleTokenInterest (now : Z) (tokens : list Token)
    (aliveSet : gmap string AlivePool) : gmap string AlivePool :=
  fold_left (refreshLiveness now) (requestedPoolsOf tokens) aliveSet.

(** What a requested pool looks like afterwards. *)
Definition refreshed (now : Z) (poolAddress : string) (before : option AlivePool) :
    AlivePool :=
  match before with
  | Some alivePool => set_lastRequestTime now alivePool
  | None => enter now poolAddress
  end.

Lemma refreshLiveness_fold now pools aliveSet addr :
  fold_left (refreshLiveness now) pools aliveSet !! addr
  = if bool_decide (addr ∈ pools) then Some (refreshed now addr (aliveSet !! addr))
    else aliveSet !! addr.
Proof.
  revert aliveSet. induction pools as [|x pools IH]; intros aliveSet; cbn [fold_left].
  { rewrite bool_decide_eq_false_2; [done|]. apply not_elem_of_nil. }
  rewrite IH.
  assert (refreshLiveness now aliveSet x !! addr
          = if decide (x = addr) then Some (refreshed now addr (aliveSet !! addr))
            else aliveSet !! addr) as ->.
  { unfold refreshLiveness. destruct (decide (x = addr)) as [->|Hx].
    - destruct (aliveSet !! addr); by rewrite lookup_insert_eq.
    - destruct (aliveSet !! x); by rewrite lookup_insert_ne. }
  destruct (decide (x = addr)) as [->|Hne].
  - rewrite (bool_decide_eq_true_2 (addr ∈ addr :: pools)) by (by left).
    case_bool_decide; [|done]. f_equal. by destruct (aliveSet !! addr).
  - case_bool_decide as H1; case_bool_decide as H2; try done.
    + exfalso. apply H2. by right.
    + exfalso. apply H1. by apply elem_of_cons in H2 as [?|?].
Qed.

Lemma setAdd_elem requestedPools x addr :
  addr ∈ setAdd requestedPools x ↔ addr ∈ requestedPools ∨ addr = x.
Proof.
  unfold setAdd. case_bool_decide.
  - split; [by left|]. by intros [?| ->].
  - rewrite elem_of_app, list_elem_of_singleton. done.
Qed.

Lemma requestedPoolsOf_elem tokens addr :
  addr ∈ requestedPoolsOf tokens ↔ addr ∈ map pool (tokens ≫= pricingPools).
Proof.
  unfold requestedPoolsOf. rewrite fold_left_nested.
  generalize (tokens ≫= pricingPools). intros routes.
  assert (∀ start, addr ∈ fold_left (λ s route, setAdd s (pool route)) routes start
                   ↔ addr ∈ start ∨ addr ∈ map pool routes) as H.
  { induction routes as [|r routes IH]; intros start; simpl.
    - split; [by left|]. intros [?|Hin]; [done|]. by apply elem_of_nil in Hin.
    - rewrite IH, setAdd_elem, elem_of_cons. naive_solver. }
  rewrite H. split; [|by right]. intros [Hin|?]; [|done]. by apply elem_of_nil in Hin.
Qed.

(** X9. After [handleTokenInterest], every pool on a route of the tokens is
    tracked with [lastRequestTime = now]; a pool that was tracked before
    keeps its tier, next-due time, last block, last price and request count
    (only the time of the last request moves), a new pool enters at tier
    [high], due in 5 s, with count 1; a pool on no route is left as it was;
    and handling the same tokens again at the same time changes nothing. *)
Theorem handleTokenInterest_liveness (now : Z) (tokens : list Token)
    (aliveSet : gmap string AlivePool) (addr : string) :
  (addr ∈ map pool (tokens ≫= pricingPools) →
     handleTokenInterest now tokens aliveSet !! addr
     = Some (match aliveSet !! addr with
             | Some alivePool => set_lastRequestTime now alivePool
             | None => mkAlivePool addr chainId high (now + seconds 5) 0 0%float 1 now
             end))
  ∧ (addr ∉ map pool (tokens ≫= pricingPools) →
     handleTokenInterest now tokens aliveSet !! addr = aliveSet !! addr)
  ∧ handleTokenInterest now tokens (handleTokenInterest now tokens aliveSet)
    = handleTokenInterest now tokens aliveSet.
Proof.
  unfold handleTokenInterest. split; [|split].
  - intros Hin. rewrite refreshLiveness_fold.
    rewrite bool_decide_eq_true_2 by (by apply requestedPoolsOf_elem). done.
  - intros Hnot. rewrite refreshLiveness_fold.
    rewrite bool_decide_eq_false_2; [done|]. by rewrite requestedPoolsOf_elem.
  - apply map_eq. intros a. rewrite !refreshLiveness_fold.
    case_bool_decide; [|done]. f_equal. by destruct (aliveSet !! a).
Qed.
End HandleTokenInterest.

(** One iteration of [pruneStaleAlive]. *)
Definition pruneStep (now : Z) (e : Engine) (tracked : string * AlivePool) : Engine :=
  let '(address, alivePool) := tracked in
  if seconds 30 <? now - lastRequestTime alivePool
  then mkEngine (delete address (aliveSet e)) (delete address (cache e))
                (currentTickId e) (ticksIssued e)
  else e.

(** [pruneStaleAlive]: the garbage collection by last request. *)
Definition pruneStaleAlive (now : Z) (e : Engine) : Engine :=
  fold_left (pruneStep now) (map_to_list (aliveSet e)) e.

Definition stale (now : Z) (alivePool : AlivePool) : Prop :=
  seconds 30 < now - lastRequestTime alivePool.

#[local] Instance stale_dec now alivePool : Decision (stale now alivePool).
Proof. unfold stale. apply _. Defined.

Lemma pruneStep_fold now tracked e addr :
  aliveSet (fold_left (pruneStep now) tracked e) !! addr
  = (if bool_decide (Exists (λ kv, fst kv = addr ∧ stale now (snd kv)) tracked)
     then None else aliveSet e !! addr)
  ∧ cache (fold_left (pruneStep now) tracked e) !! addr
    = (if bool_decide (Exists (λ kv, fst kv = addr ∧ stale now (snd kv)) tracked)
       then None else cache e !! addr).
Proof.
  revert e. induction tracked as [|[k p] tracked IH]; intros e; cbn [fold_left].
  { rewrite bool_decide_eq_false_2; [done|]. by intros ?%Exists_nil. }
  destruct (IH (pruneStep now e (k, p))) as [-> ->]. unfold pruneStep.
  destruct (Z.ltb_spec (seconds 30) (now - lastRequestTime p)) as [Hstale|Hlive];
    cbn [aliveSet cache].
  - destruct (decide (k = addr)) as [->|Hne].
    + rewrite (bool_decide_eq_true_2 (Exists _ (_ :: tracked)))
        by (apply Exists_cons_hd; done).
      rewrite !lookup_delete_eq. by case_bool_decide.
    + rewrite !lookup_delete_ne by done.
      case_bool_decide as H1; case_bool_decide as H2; try done.
      * exfalso. apply H2. by apply Exists_cons_tl.
      * exfalso. apply H1. apply Exists_cons in H2 as [[? _]|?]; [done|done].
  - case_bool_decide as H1; case_bool_decide as H2; try done.
    + exfalso. apply H2. by apply Exists_cons_tl.
    + exfalso. apply H1. apply Exists_cons in H2 as [[_ Hs]|?]; [|done].
      unfold stale in Hs. simpl in Hs. lia.
Qed.

(** X10. [pruneStaleAlive] removes exactly the tracked pools whose last
    request is more than 30 s old, together with their cache entries; a pool
    last requested 30 s ago or less stays with its entry, and the entry of a
    pool that is not tracked is never collected. *)
Theorem pruneStaleAlive_lookup (now : Z) (e : Engine) (addr : string) :
  (∀ alivePool, aliveSet e !! addr = Some alivePool →
     (seconds 30 < now - lastRequestTime alivePool →
        aliveSet (pruneStaleAlive now e) !! addr = None
        ∧ cache (pruneStaleAlive now e) !! addr = None)
     ∧ (now - lastRequestTime alivePool ≤ seconds 30 →
        aliveSet (pruneStaleAlive now e) !! addr = Some alivePool
        ∧ cache (pruneStaleAlive now e) !! addr = cache e !! addr))
  ∧ (aliveSet e !! addr = None →
     aliveSet (pruneStaleAlive now e) !! addr = None
     ∧ cache (pruneStaleAlive now e) !! addr = cache e !! addr).
Proof.
  unfold pruneStaleAlive.
  destruct (pruneStep_fold now (map_to_list (aliveSet e)) e addr) as [-> ->].
  split.
  - intros alivePool Hp. split; intros Hage.
    + rewrite bool_decide_eq_true_2; [done|]. apply Exists_exists.
      exists (addr, alivePool). split; [by apply elem_of_map_to_list|done].
    + rewrite bool_decide_eq_false_2; [done|].
      intros ([k p] & Hin%elem_of_map_to_list & Hk & Hs)%Exists_exists.
      simpl in *. subst k. unfold stale in Hs.
      assert (p = alivePool) as -> by congruence. lia.
  - intros Hnone. rewrite bool_decide_eq_false_2; [done|].
    intros ([k p] & Hin%elem_of_map_to_list & Hk & _)%Exists_exists.
    simpl in *. subst k. congruence.
Qed.

(** X11. A pool on a route of the tokens handled at time [t] survives every
    [pruneStaleAlive] run up to 30 s later, and its cache entry with it. *)
Theorem pruneStaleAlive_after_interest (chainId t now : Z) (tokens : list Token)
    (e : Engine) (addr : string) :
  addr ∈ map pool (tokens ≫= pricingPools) →
  now - t ≤ seconds 30 →
  let e1 := mkEngine (handleTokenInterest chainId t tokens (aliveSet e)) (cache e)
                     (currentTickId e) (ticksIssued e) in
  is_Some (aliveSet (pruneStaleAlive now e1) !! addr)
  ∧ cache (pruneStaleAlive now e1) !! addr = cache e !! addr.
Proof.
  intros Hin Hage e1. unfold pruneStaleAlive.
  destruct (pruneStep_fold now (map_to_list (aliveSet e1)) e1 addr) as [-> ->].
  assert (∃ alivePool, aliveSet e1 !! addr = Some alivePool
                       ∧ lastRequestTime alivePool = t) as (alivePool & Hp & Ht).
  { subst e1. cbn [aliveSet]. unfold handleTokenInterest.
    rewrite refreshLiveness_fold.
    rewrite bool_decide_eq_true_2 by (by apply requestedPoolsOf_elem).
    eexists. split; [done|]. by destruct (aliveSet e !! addr). }
  rewrite bool_decide_eq_false_2.
  - rewrite Hp. split; [by eexists|done].
  - intros ([k p] & Hk%elem_of_map_to_list & Ha & Hs)%Exists_exists.
    simpl in *. subst k. unfold stale in Hs.
    assert (p = alivePool) as -> by congruence. lia.
Qed.

Definition tokenY : Token := mkToken "0xtok" [mkRoute "0xaaa" "0xusd"; mkRoute "0xccc" "0xusd"].

Lemma handleTokenInterest_liveness_witness :
  handleTokenInterest 1 7000 [tokenY] (aliveSet engine0) !! "0xccc"
  = Some (mkAlivePool "0xccc" 1 high 12000 0 0%float 1 7000)
  ∧ handleTokenInterest 1 7000 [tokenY] (aliveSet engine0) !! "0xbbb" = Some poolB.
Proof.
  destruct (handleTokenInterest_liveness 1 7000 [tokenY] (aliveSet engine0) "0xccc")
    as (Hin & _ & _).
  destruct (handleTokenInterest_liveness 1 7000 [tokenY] (aliveSet engine0) "0xbbb")
    as (_ & Hout & _).
  split.
  - apply Hin. vm_compute. apply elem_of_cons. right. apply elem_of_cons. by left.
  - apply Hout. vm_compute. intros H.
    apply elem_of_cons in H as [H|H]; [discriminate|].
    apply list_elem_of_singleton in H. discriminate.
Defined.

Lemma pruneStaleAlive_lookup_witness :
  aliveSet (pruneStaleAlive 30000 engine0) !! "0xaaa" = Some poolA
  ∧ aliveSet (pruneStaleAlive 30001 engine0) !! "0xaaa" = None.
Proof.
  destruct (pruneStaleAlive_lookup 30000 engine0 "0xaaa") as [Hkeep _].
  destruct (pruneStaleAlive_lookup 30001 engine0 "0xaaa") as [Hdrop _].
  split.
  - apply (Hkeep poolA); [reflexivity|]. simpl. unfold seconds. lia.
  - apply (Hdrop poolA); [reflexivity|]. simpl. unfold seconds. lia.
Defined.

Lemma pruneStaleAlive_after_interest_witness :
  is_Some (aliveSet (pruneStaleAlive 37000
                       (mkEngine (handleTokenInterest 1 7000 [tokenY] (aliveSet engine0))
                                 (cache engine0) 0 0)) !! "0xccc").
Proof.
  apply (pruneStaleAlive_after_interest 1 7000 37000 [tokenY] engine0 "0xccc").
  - vm_compute. apply elem_of_cons. right. apply elem_of_cons. by left.
  - unfold seconds. lia.
Defined.

End Liveness.

(** ** The alive set under registration, release and sweeps *)

Module Lifecycle.
Import Registry Tracker Reclaimer.
Local Open Scope Z_scope.

(** *** What [handleTokenInterest] does to one pool *)

(** A pool after [n] more references at time [now]. *)
Definition referenced (now chainId : Z) (k : PoolKey) (n : nat)
    (before : option Pool.t) : option Pool.t :=
  match n with
  | O => before
  | S _ =>
    Some (match before with
          | Some p =>
            Pool.set_requestCount (Pool.requestCount p + Z.of_nat n)
                                  (Pool.set_lastRequestTime now p)
          | None => Pool.mk (snd k) chainId high (now + 5000) 0 0%float
                            (Z.of_nat n) now undefined
          end)
  end.

Lemma touch_lookup now chainId a route k :
  touch now chainId a route !! k
  = if decide (poolKey chainId (pool route) = k)
    then referenced now chainId k 1 (a !! k) else a !! k.
Proof.
  unfold touch. case_decide as Hk.
  - subst k. destruct (a !! poolKey chainId (pool route)); by rewrite lookup_insert_eq.
  - destruct (a !! poolKey chainId (pool route)); by rewrite lookup_insert_ne.
Qed.

Lemma referenced_again now chainId k n before :
  referenced now chainId k 1 (referenced now chainId k n before)
  = referenced now chainId k (S n) before.
Proof.
  destruct n as [|n]; [done|]. unfold referenced.
  destruct before as [p|]; simpl; f_equal;
    unfold Pool.set_requestCount, Pool.set_lastRequestTime; simpl; f_equal; lia.
Qed.

Lemma touches_lookup now chainId routes a k :
  fold_left (touch now chainId) routes a !! k
  = referenced now chainId k (hits k chainId routes) (a !! k).
Proof.
  revert a. induction routes as [|route routes IH] using rev_ind; intros a; [done|].
  rewrite fold_left_app. cbn [fold_left]. rewrite touch_lookup, IH.
  unfold hits. rewrite filter_app, length_app, filter_cons, filter_nil.
  case_decide; simpl length.
  - rewrite Nat.add_1_r. apply referenced_again.
  - by rewrite Nat.add_0_r.
Qed.

(** X12. [handleTokenInterest], pool by pool: a pool on no route of the
    tokens is left as it is; a pool referenced [n > 0] times that was tracked
    keeps its tier, next-due time, last block, last price and [refCount],
    has its [requestCount] raised by [n] and its last request set to [now];
    one that was not tracked enters at tier [high], due 5000 ms later, with
    [requestCount] [n] and no [refCount]. *)
Theorem handleTokenInterest_lookup (now : Z) (tokens : list Token) (chainId : Z)
    (aliveSet : gmap PoolKey Pool.t) (k : PoolKey) :
  (references k tokens chainId = 0 →
     handleTokenInterest now tokens chainId aliveSet !! k = aliveSet !! k)
  ∧ (0 < references k tokens chainId →
     handleTokenInterest now tokens chainId aliveSet !! k
     = Some (match aliveSet !! k with
             | Some p =>
               Pool.set_requestCount (Pool.requestCount p + references k tokens chainId)
                                     (Pool.set_lastRequestTime now p)
             | None =>
               Pool.mk (snd k) chainId high (now + 5000) 0 0%float
                       (references k tokens chainId) now undefined
             end)).
Proof.
  unfold handleTokenInterest. rewrite fold_left_nested, touches_lookup.
  rewrite references_hits. split.
  - intros H0. by replace (hits k chainId (tokens ≫= pricingPools)) with O by lia.
  - intros Hpos. destruct (hits k chainId (tokens ≫= pricingPools)) as [|n]; [simpl in Hpos; lia|].
    unfold referenced. by destruct (aliveSet !! k).
Qed.

(** *** What no sequence of calls brings about *)









(** X14. [decrementRefCount] undoes [incrementRefCount]: on an alive set
    where the pool's [refCount] is a number that is not negative, or [NaN],
    incrementing and then decrementing the pool gives back the alive set,
    and so it does when the pool is not tracked. (A pool with no [refCount]
    gets [NaN] for one.) *)
Theorem decrement_increment (poolAddress : string) (chainId : Z)
    (aliveSet : gmap PoolKey Pool.t) :
  (∀ p, aliveSet !! poolKey chainId poolAddress = Some p →
     match Pool.refCount p with
     | number n => 0 ≤ n
     | NaN => True
     | undefined => False
     end) →
  decrementRefCount poolAddress chainId (incrementRefCount poolAddress chainId aliveSet)
  = aliveSet.
Proof.
  intros Hc. unfold incrementRefCount, decrementRefCount.
  destruct (aliveSet !! poolKey chainId poolAddress) as [p|] eqn:E.
  - rewrite lookup_insert_eq, insert_insert_eq. apply insert_id. rewrite E. f_equal.
    specialize (Hc p eq_refl). destruct p as [a c t n b l r q rc]. simpl in *.
    unfold Pool.set_refCount. simpl. f_equal.
    destruct rc as [| |m]; [done|done|]. simpl. f_equal. lia.
  - by rewrite E.
Qed.

(** *** Sweeps *)

Section Sweeps.
Variable POOL_GRACE_PERIOD_MS : Z.

(** X15. After a sweep at time [now], every grace record left is younger
    than the grace period, and a pool that is still tracked under a recorded
    key has no reference; a sweep adds no pool and no cache entry and
    changes none that it keeps. *)
Theorem cleanupPools_after (now : Z) (gc : GC) (k : PoolKey) :
  WellKeyed (aliveSet gc) →
  let gc' := cleanupPools POOL_GRACE_PERIOD_MS now gc in
  (∀ t, poolsWithZeroRefCount gc' !! k = Some t →
     now - t < POOL_GRACE_PERIOD_MS
     ∧ ∀ p, aliveSet gc' !! k = Some p → refCount p = 0)
  ∧ (∀ p, aliveSet gc' !! k = Some p → aliveSet gc !! k = Some p)
  ∧ (∀ entry, cache gc' !! k = Some entry → cache gc !! k = Some entry).
Proof.
  intros Hwf gc'. pose proof (cleanupPools_lookup POOL_GRACE_PERIOD_MS now gc k Hwf) as H.
  cbv zeta in H. fold gc' in H.
  remember (match aliveSet gc !! k with
            | Some p0 => observed now p0 (poolsWithZeroRefCount gc !! k)
            | None => poolsWithZeroRefCount gc !! k
            end) as z eqn:Hz.
  destruct z as [t|]; [destruct (Z.leb_spec POOL_GRACE_PERIOD_MS (now - t)) as [Hexp|Hin]|];
    destruct H as (-> & -> & ->).
  - split; [by intros ?|]. split; by intros ?.
  - split; [|by split]. intros t' [= <-]. split; [done|].
    intros p Hp. rewrite Hp in Hz. unfold observed in Hz.
    destruct (Z.eqb_spec (refCount p) 0); [done|discriminate].
  - split; [by intros ?|]. by split.
Qed.

Lemma WellKeyed_cleanupPools now gc :
  WellKeyed (aliveSet gc) →
  WellKeyed (aliveSet (cleanupPools POOL_GRACE_PERIOD_MS now gc)).
Proof.
  intros Hwf k p Hp. apply Hwf.
  pose proof (cleanupPools_lookup POOL_GRACE_PERIOD_MS now gc k Hwf) as H.
  cbv zeta in H.
  destruct (match aliveSet gc !! k with
            | Some p0 => observed now p0 (poolsWithZeroRefCount gc !! k)
            | None => poolsWithZeroRefCount gc !! k
            end) as [t|];
    [destruct (POOL_GRACE_PERIOD_MS <=? now - t)|];
    destruct H as (Ha & _ & _); congruence.
Qed.

End Sweeps.

(** An alive set with one pool that was requested twice and has been given
    a reference count of 2. *)
Definition watched : gmap PoolKey Pool.t :=
  {[ (1, "0xaaa") := Pool.mk "0xaaa" 1 low 0 10 1%float 2 500 (number 2) ]}.


Lemma handleTokenInterest_lookup_witness :
  handleTokenInterest 9000 [tokenX; tokenX] 1 watched !! (1, "0xaaa")
  = Some (Pool.mk "0xaaa" 1 low 0 10 1%float 4 9000 (number 2)).
Proof.
  destruct (handleTokenInterest_lookup 9000 [tokenX; tokenX] 1 watched (1, "0xaaa"))
    as [_ H].
  rewrite H; [reflexivity|]. vm_compute. reflexivity.
Defined.

Lemma decrement_increment_witness :
  decrementRefCount "0xaaa" 1 (incrementRefCount "0xaaa" 1 watched) = watched.
Proof.
  apply (decrement_increment "0xaaa" 1 watched).
  intros p Hp. vm_compute in Hp.
  assert (Pool.refCount p = number 2) as -> by (by injection Hp as <-).
  lia.
Defined.

Lemma cleanupPools_after_witness :
  poolsWithZeroRefCount (cleanupPools 20000 30000 gc0) !! (1, "0xaaa") = Some 30000
  ∧ 30000 - 30000 < 20000
  ∧ aliveSet (cleanupPools 20000 30000 gc0) !! (1, "0xaaa") = Some idle.
Proof.
  destruct (cleanupPools_after 20000 30000 gc0 (1, "0xaaa") WellKeyed_gc0) as (H & _ & _).
  split; [reflexivity|]. split; [|reflexivity].
  by destruct (H 30000 ltac:(reflexivity)).
Defined.

End Lifecycle.

(** ** Which route prices a token *)

Module RouteChoice.
Import Registry Pricing.

Section BestRoute.
Variable Math_pow : float → float → float.
Variable sharedStateCache : SharedStateCache.
Variable getPoolRegistry : Z → PoolRegistry.

(** A route the first loop stops at: its pool state is cached and its base
    is a USD stablecoin. *)
Definition anchored (chainId : Z) (route : PricingRoute) : Prop :=
  is_Some (poolStateStore sharedStateCache !! pool route)
  ∧ isUsdStablecoin (base route) chainId = true.

Lemma findStableRoute_first chainId before route after :
  anchored chainId route →
  (∀ r, r ∈ before → ¬ anchored chainId r) →
  fst (findStableRoute sharedStateCache chainId (before ++ route :: after)) = Some route.
Proof.
  intros [Hc Hs] Hbefore. induction before as [|r before IH]; simpl.
  - rewrite fst_bind. simpl. rewrite Hs, bool_decide_eq_true_2 by done. done.
  - rewrite fst_bind. simpl.
    destruct (bool_decide _ && _) eqn:E.
    + exfalso. apply (Hbefore r); [by left|].
      apply andb_true_iff in E as [E1 E2]. apply bool_decide_eq_true in E1. done.
    + apply IH. intros r' Hr'. apply Hbefore. by right.
Qed.

Lemma findStableRoute_None chainId routes :
  (∀ r, r ∈ routes → ¬ anchored chainId r) →
  fst (findStableRoute sharedStateCache chainId routes) = None.
Proof.
  intros H.
  destruct (fst (findStableRoute sharedStateCache chainId routes)) as [route|] eqn:E; [|done].
  exfalso. induction routes as [|r routes IH]; simpl in E; [done|].
  rewrite fst_bind in E. simpl in E.
  destruct (bool_decide _ && _) eqn:E'.
  - apply andb_true_iff in E' as [E1 E2]. apply bool_decide_eq_true in E1.
    apply (H r); [by left|done].
  - apply IH; [|done]. intros r' Hr'. apply H. by right.
Qed.

Lemma findCachedRoute_first before route after :
  is_Some (poolStateStore sharedStateCache !! pool route) →
  (∀ r, r ∈ before → poolStateStore sharedStateCache !! pool r = None) →
  fst (findCachedRoute sharedStateCache (before ++ route :: after)) = Some route.
Proof.
  intros Hc Hbefore. induction before as [|r before IH]; simpl.
  - rewrite fst_bind. simpl. by rewrite bool_decide_eq_true_2.
  - rewrite fst_bind. simpl. rewrite bool_decide_eq_false_2.
    + apply IH. intros r' Hr'. apply Hbefore. by right.
    + rewrite (Hbefore r) by (by left). by intros [? ?].
Qed.

(** X17. Which route prices a token. A cached route to a USD stablecoin is
    preferred wherever it stands in the list: the first such route gives the
    price, in one hop and with no recursive call, even when routes before it
    are cached too. Only when no route is both cached and based on a
    stablecoin is the first cached route used, and its hop price multiplied
    by the USD price of its base. *)
Theorem computeSpotPrice_route_choice (fuel : nat) (tokenAddress : string)
    (chainId : Z) (before after : list PricingRoute) (route : PricingRoute)
    (poolState : PoolState) :
  isUsdStablecoin tokenAddress chainId = false →
  pricingRoutes (getPoolRegistry chainId) !! toLowerCase tokenAddress
  = Some (before ++ route :: after) →
  poolStateStore sharedStateCache !! pool route = Some poolState →
  let price := hopPriceOf Math_pow sharedStateCache (toLowerCase tokenAddress) poolState in
  (isUsdStablecoin (base route) chainId = true →
   (∀ r, r ∈ before → ¬ anchored chainId r) →
   fst (computeSpotPrice Math_pow sharedStateCache getPoolRegistry (S fuel)
          tokenAddress chainId)
   = Returned (Some price))
  ∧ (isUsdStablecoin (base route) chainId = false →
     (∀ r, r ∈ before → poolStateStore sharedStateCache !! pool r = None) →
     (∀ r, r ∈ after → ¬ anchored chainId r) →
     fst (computeSpotPrice Math_pow sharedStateCache getPoolRegistry (S fuel)
            tokenAddress chainId)
     = match fst (computeSpotPrice Math_pow sharedStateCache getPoolRegistry fuel
                    (base route) chainId) with
       | OutOfFuel => OutOfFuel
       | Returned (Some baseUsdPrice) => Returned (Some (price * baseUsdPrice)%float)
       | Returned None => Returned None
       end).
Proof.
  intros Hns Hroutes Hstate price. cbn [computeSpotPrice].
  rewrite computeSpotPriceBody_answer, Hroutes by done. split.
  - intros Hs Hbefore. unfold bestRouteOf.
    rewrite findStableRoute_first; [by rewrite Hstate, Hs| |done].
    split; [by exists poolState|done].
  - intros Hs Hbefore Hafter. unfold bestRouteOf.
    rewrite findStableRoute_None, findCachedRoute_first; [by rewrite Hstate, Hs| |done|].
    + by exists poolState.
    + intros r [Hr | [-> | Hr]%elem_of_cons]%elem_of_app.
      * intros [[ps Hps] _]. by rewrite (Hbefore r Hr) in Hps.
      * intros [_ Hst]. congruence.
      * by apply Hafter.
Qed.
End BestRoute.

(** [TKN] has a route over WETH and, after it, one to USDC; both pools are
    cached. *)
Definition twoRoutes (_ : Z) : PoolRegistry :=
  mkPoolRegistry {[ TKN := [mkRoute "0xpool-tkn-weth" WETH;
                            mkRoute "0xpool-usdc-tkn" USDC] ]}.

Definition twoRoutesCache : SharedStateCache :=
  mkSharedStateCache
    (list_to_map [
       ("0xpool-tkn-weth", mkPoolState TKN WETH (2 ^ 96));
       ("0xpool-usdc-tkn", mkPoolState USDC TKN (2 ^ 96))
     ])
    ∅.

Lemma computeSpotPrice_route_choice_witness :
  fst (computeSpotPrice hostPow twoRoutesCache twoRoutes 1 TKN 1)
  = Returned (Some (hopPriceOf hostPow twoRoutesCache TKN (mkPoolState USDC TKN (2 ^ 96)))).
Proof.
  destruct (computeSpotPrice_route_choice hostPow twoRoutesCache twoRoutes 0 TKN 1
              [mkRoute "0xpool-tkn-weth" WETH] [] (mkRoute "0xpool-usdc-tkn" USDC)
              (mkPoolState USDC TKN (2 ^ 96))
              ltac:(vm_compute; reflexivity) ltac:(vm_compute; reflexivity)
              ltac:(vm_compute; reflexivity)) as [H _].
  apply H; [vm_compute; reflexivity|].
  intros r ->%list_elem_of_singleton [_ Hs]. vm_compute in Hs. discriminate.
Defined.

End RouteChoice.

(** ** Greedy packing of batches *)

Module Packing.
Import Batching.
Local Open Scope Z_scope.

Section Greedy.
Context {AlivePool : Type}.
Variable dexType : AlivePool → DexType.
Variable MAX_WEIGHT : Z.

(** Every batch after the first starts with a pool that did not fit in the
    batch before it. *)
Definition Greedy (bs : list (list AlivePool)) : Prop :=
  ∀ i b b', bs !! i = Some b → bs !! S i = Some b' →
    ∃ p, head b' = Some p ∧ MAX_WEIGHT < batchWeight dexType b + poolWeight dexType p.

(** What the loop of [createBatches] maintains on top of [Inv]. *)
Record Packed (acc : Acc) : Prop := mkPacked {
  packed_weight : currentWeight acc = batchWeight dexType (currentBatch acc);
  packed_open : currentBatch acc = [] → batches acc = [];
  packed_greedy : Greedy (batches acc ++ [currentBatch acc])
}.

Lemma Packed_init : Packed (mkAcc [] [] 0).
Proof. split; simpl; try done. all: intros i b b' _ Hi; by destruct i. Qed.

Lemma Greedy_snoc bs b c :
  Greedy (bs ++ [b]) →
  (∃ p, head c = Some p ∧ MAX_WEIGHT < batchWeight dexType b + poolWeight dexType p) →
  Greedy ((bs ++ [b]) ++ [c]).
Proof.
  intros Hg Hc i x y Hx Hy.
  destruct (decide (S i < length (bs ++ [b]))%nat) as [Hlt|Hge].
  - rewrite lookup_app_l in Hx, Hy by lia. by apply (Hg i).
  - apply lookup_lt_Some in Hy as Hlen. rewrite length_app in Hlen. simpl in Hlen.
    assert (S i = length (bs ++ [b])) as Hi by lia.
    rewrite lookup_app_r in Hy by lia. rewrite Hi, Nat.sub_diag in Hy.
    injection Hy as <-.
    rewrite lookup_app_l in Hx by lia. rewrite length_app in Hi. simpl in Hi.
    rewrite lookup_app_r in Hx by lia.
    replace (i - length bs)%nat with 0%nat in Hx by lia. injection Hx as <-. done.
Qed.

Lemma Greedy_grow bs b p :
  b ≠ [] → Greedy (bs ++ [b]) → Greedy (bs ++ [b ++ [p]]).
Proof.
  intros Hne Hg i x y Hx Hy.
  apply lookup_lt_Some in Hy as Hlen. rewrite length_app in Hlen. simpl in Hlen.
  destruct (decide (S i < length bs)%nat) as [Hlt|Hge].
  - rewrite lookup_app_l in Hx, Hy by lia. apply (Hg i); by rewrite lookup_app_l by lia.
  - assert (S i = length bs) as Hi by lia.
    rewrite lookup_app_l in Hx by lia.
    rewrite lookup_app_r in Hy by lia. rewrite Hi, Nat.sub_diag in Hy.
    injection Hy as <-.
    destruct (Hg i x b) as (q & Hq & Hw).
    + by rewrite lookup_app_l by lia.
    + rewrite lookup_app_r by lia. by rewrite Hi, Nat.sub_diag.
    + exists q. split; [|done]. destruct b; [done|]. done.
Qed.

Lemma Packed_step acc pool : Packed acc → Packed (step dexType MAX_WEIGHT acc pool).
Proof.
  intros [Hw Ho Hg]. unfold step.
  destruct (Z.gtb_spec (currentWeight acc + poolWeight dexType pool) MAX_WEIGHT)
    as [Hgt|Hle]; split; simpl.
  - lia.
  - intros H. by destruct (app_cons_not_nil [] [] pool).
  - apply Greedy_snoc; [done|]. exists pool. split; [done|]. by rewrite <- Hw.
  - rewrite batchWeight_app, Hw. simpl. lia.
  - intros H. by destruct (app_cons_not_nil (currentBatch acc) [] pool).
  - destruct (currentBatch acc) as [|q c] eqn:E.
    + rewrite (Ho eq_refl). simpl. intros i b b' _ Hi. by destruct i.
    + by apply Greedy_grow.
Qed.

Lemma Packed_fold pools acc :
  Packed acc → Packed (fold_left (step dexType MAX_WEIGHT) pools acc).
Proof.
  revert acc. induction pools as [|pool pools IH]; intros acc H; simpl; [done|].
  by apply IH, Packed_step.
Qed.

(** X18. [createBatches] packs greedily: a batch is closed only when the
    next due pool does not fit, so every batch after the first starts with a
    pool that would have taken the batch before it over the ceiling; every
    batch but the last therefore weighs more than the ceiling less 2, and no
    two neighbouring batches could have been sent as one. *)
Theorem createBatches_greedy (pools : list AlivePool) :
  let result := createBatches dexType MAX_WEIGHT pools in
  (∀ i b b', result !! i = Some b → result !! S i = Some b' →
     ∃ p, head b' = Some p
          ∧ MAX_WEIGHT < batchWeight dexType b + poolWeight dexType p)
  ∧ (∀ i b, result !! i = Some b → (S i < length result)%nat →
       MAX_WEIGHT - 2 < batchWeight dexType b)
  ∧ (∀ i b b', result !! i = Some b → result !! S i = Some b' →
       MAX_WEIGHT < batchWeight dexType (b ++ b')).
Proof.
  intros result.
  assert (Greedy result) as Hg.
  { subst result.
    destruct (Packed_fold pools _ Packed_init) as [_ Ho Hg].
    destruct (createBatches_cases dexType MAX_WEIGHT pools) as [[Hnil ->]|[Hne ->]];
      [|done].
    rewrite (Ho Hnil). intros i b b' Hi. by destruct i. }
  split; [done|]. split.
  - intros i b Hi Hlen. destruct (lookup_lt_is_Some_2 result (S i) Hlen) as [b' Hb'].
    destruct (Hg i b b' Hi Hb') as (p & _ & Hw).
    unfold poolWeight in Hw. destruct (dexType p); lia.
  - intros i b b' Hi Hi'. destruct (Hg i b b' Hi Hi') as (p & Hp & Hw).
    rewrite batchWeight_app. destruct b' as [|q b']; [done|]. injection Hp as ->.
    simpl batchWeight. pose proof (batchWeight_nonneg dexType b'). lia.
Qed.
End Greedy.

Lemma createBatches_greedy_witness :
  3 < batchWeight id ([v3] ++ [v3; v2]).
Proof.
  destruct (createBatches_greedy id 3 [v3; v3; v2]) as (_ & _ & H).
  apply (H 0%nat [v3] [v3; v2]); reflexivity.
Defined.

End Packing.

(** ** The quote request batcher *)

Module Quotes.

Section RequestBatcher.
(** [TokenMetadata] of [shared/tokens], of which the batcher reads the
    address only, and the [resolve] function of the promise it hands out. *)
Context {TokenMetadata ResolveFunction : Type}.
Variable address : TokenMetadata → string.

Record QuoteRequest := mkQuoteRequest {
  tokenIn : TokenMetadata;
  tokenOut : TokenMetadata;
  amount : string;
  resolve : ResolveFunction;
  id : string
}.

(** The batcher's queue, and the calls of [controller.getQuotes] it has
    made so far, oldest first. *)
Record RequestBatcher := mkRequestBatcher {
  queue : list QuoteRequest;
  getQuotes : list (list QuoteRequest)
}.

(** The request [addQuoteRequest] builds. *)
Definition quoteRequest (tokenIn tokenOut : TokenMetadata) (amount : string)
    (resolve : ResolveFunction) : QuoteRequest :=
  mkQuoteRequest tokenIn tokenOut amount resolve
    (address tokenIn +:+ "_" +:+ address tokenOut +:+ "_" +:+ amount).

Definition addQuoteRequest (tokenIn tokenOut : TokenMetadata) (amount : string)
    (resolve : ResolveFunction) (b : RequestBatcher) : RequestBatcher :=
  mkRequestBatcher (queue b ++ [quoteRequest tokenIn tokenOut amount resolve])
                   (getQuotes b).

Definition processQueue (b : RequestBatcher) : RequestBatcher :=
  if (length (queue b) =? 0)%nat then b
  else
    let currentQueue := queue b in
    mkRequestBatcher [] (getQuotes b ++ [currentQueue]).

(** What happens to a batcher: a client asks for a quote, or the 100 ms
    timer fires. *)
Inductive Event :=
  | Asked (tokenIn tokenOut : TokenMetadata) (amount : string) (resolve : ResolveFunction)
  | Timer.

Definition handle (b : RequestBatcher) (ev : Event) : RequestBatcher :=
  match ev with
  | Asked tokenIn tokenOut amount resolve => addQuoteRequest tokenIn tokenOut amount resolve b
  | Timer => processQueue b
  end.

(** The requests a sequence of events asks for, in order. *)
Definition asked (events : list Event) : list QuoteRequest :=
  events ≫= λ ev,
    match ev with
    | Asked tokenIn tokenOut amount resolve => [quoteRequest tokenIn tokenOut amount resolve]
    | Timer => []
    end.

Lemma handle_conserves b ev :
  concat (getQuotes (handle b ev)) ++ queue (handle b ev)
  = (concat (getQuotes b) ++ queue b) ++ asked [ev].
Proof.
  destruct ev as [tokenIn tokenOut amt res|]; unfold asked; cbn.
  - by rewrite app_assoc.
  - rewrite app_nil_r. unfold processQueue.
    destruct (queue b) as [|r q] eqn:E; cbn.
    + by rewrite E.
    + rewrite concat_app. cbn. by rewrite !app_nil_r.
Qed.

Lemma handle_nonempty b ev :
  Forall (λ batch, batch ≠ []) (getQuotes b) →
  Forall (λ batch, batch ≠ []) (getQuotes (handle b ev)).
Proof.
  intros H. destruct ev as [tokenIn tokenOut amt res|]; simpl; [done|].
  unfold processQueue. destruct (queue b) as [|r q] eqn:E; simpl; [done|].
  apply Forall_app. split; [done|]. by apply Forall_singleton.
Qed.

(** X19. Whatever the interleaving of quote requests and timer ticks, no
    request is lost, duplicated or reordered: the batches handed to the
    controller, one after the other, followed by what is still queued, are
    the requests in the order they were asked; the controller is never
    handed an empty batch; and right after a tick nothing is left queued. *)
Theorem processQueue_conserves (events : list Event) :
  let b := fold_left handle events (mkRequestBatcher [] []) in
  concat (getQuotes b) ++ queue b = asked events
  ∧ Forall (λ batch, batch ≠ []) (getQuotes b)
  ∧ queue (processQueue b) = [].
Proof.
  induction events as [|ev events IH] using rev_ind; simpl.
  - done.
  - rewrite fold_left_app. cbn [fold_left].
    destruct IH as (IH1 & IH2 & _). split; [|split].
    + rewrite handle_conserves, IH1. unfold asked. by rewrite bind_app.
    + by apply handle_nonempty.
    + unfold processQueue.
      by destruct (queue (handle _ ev)) eqn:E; cbn; rewrite ?E.
Qed.
End RequestBatcher.

Lemma processQueue_conserves_witness :
  getQuotes (fold_left (handle (λ a, a))
               [Asked "0xa" "0xb" "1" tt; Asked "0xb" "0xc" "2" tt; Timer; Timer;
                Asked "0xc" "0xa" "3" tt]
               (mkRequestBatcher [] []))
  = [[quoteRequest (λ a, a) "0xa" "0xb" "1" tt; quoteRequest (λ a, a) "0xb" "0xc" "2" tt]]
  ∧ Forall (λ batch, batch ≠ [])
      (getQuotes (fold_left (handle (λ a, a))
                    [Asked "0xa" "0xb" "1" tt; Asked "0xb" "0xc" "2" tt; Timer; Timer;
                     Asked "0xc" "0xa" "3" tt]
                    (mkRequestBatcher [] []))).
Proof.
  split; [reflexivity|].
  apply (processQueue_conserves (λ a, a)
           [Asked "0xa" "0xb" "1" tt; Asked "0xb" "0xc" "2" tt; Timer; Timer;
            Asked "0xc" "0xa" "3" tt]).
Defined.

End Quotes.

(** ** The in-memory cache layer *)

Module Layer.
Local Open Scope Z_scope.

(** [CacheEntry<T>]. *)
Record Cached (T : Type) := mkCached {
  data : T;
  timestamp : Z
}.
Arguments mkCached {T}.
Arguments data {T}.
Arguments timestamp {T}.

Section CacheLayer.
(** The token lists and pool registries are stored as they come. *)
Context {Token PoolRegistry : Type}.

Record CacheLayer := mkCacheLayer {
  tokenCache : gmap Z (Cached (list Token));
  registryCache : gmap Z (Cached PoolRegistry)
}.

(** What [storageService] holds at the time of a call. *)
Record Storage := mkStorage {
  getTokensByNetwork : Z → list Token;
  getPoolRegistry : Z → PoolRegistry
}.

Definition getTokensByNetworkCached (storage : Storage) (now chainId : Z)
    (c : CacheLayer) : list Token * CacheLayer :=
  match tokenCache c !! chainId with
  | Some cached => (data cached, c)
  | None =>
    let tokens := getTokensByNetwork storage chainId in
    (tokens, mkCacheLayer (<[chainId := mkCached tokens now]> (tokenCache c))
                          (registryCache c))
  end.

Definition getPoolRegistryCached (storage : Storage) (now chainId : Z)
    (c : CacheLayer) : PoolRegistry * CacheLayer :=
  match registryCache c !! chainId with
  | Some cached => (data cached, c)
  | None =>
    let registry := getPoolRegistry storage chainId in
    (registry, mkCacheLayer (tokenCache c)
                            (<[chainId := mkCached registry now]> (registryCache c)))
  end.

Definition invalidateTokenCache (chainId : Z) (c : CacheLayer) : CacheLayer :=
  mkCacheLayer (delete chainId (tokenCache c)) (registryCache c).

Definition invalidateRegistryCache (chainId : Z) (c : CacheLayer) : CacheLayer :=
  mkCacheLayer (tokenCache c) (delete chainId (registryCache c)).

Definition clearAllCaches (c : CacheLayer) : CacheLayer := mkCacheLayer ∅ ∅.

(** The calls made on a cache layer; a read comes with what storage holds
    when it is made. *)
Inductive Call :=
  | ReadTokens (storage : Storage) (now chainId : Z)
  | ReadRegistry (storage : Storage) (now chainId : Z)
  | InvalidateTokens (chainId : Z)
  | InvalidateRegistry (chainId : Z)
  | ClearAll.

Definition call (c : CacheLayer) (op : Call) : CacheLayer :=
  match op with
  | ReadTokens storage now chainId => snd (getTokensByNetworkCached storage now chainId c)
  | ReadRegistry storage now chainId => snd (getPoolRegistryCached storage now chainId c)
  | InvalidateTokens chainId => invalidateTokenCache chainId c
  | InvalidateRegistry chainId => invalidateRegistryCache chainId c
  | ClearAll => clearAllCaches c
  end.

(** A call that does not drop the token list of [chainId]. *)
Definition keepsTokens (chainId : Z) (op : Call) : Prop :=
  match op with
  | InvalidateTokens chainId' => chainId' ≠ chainId
  | ClearAll => False
  | _ => True
  end.

Lemma call_keepsTokens chainId op c cached :
  keepsTokens chainId op →
  tokenCache c !! chainId = Some cached →
  tokenCache (call c op) !! chainId = Some cached.
Proof.
  intros Hk Hc. destruct op as [st now c'|st now c'|c'|c'|]; simpl in *.
  - unfold getTokensByNetworkCached.
    destruct (tokenCache c !! c') eqn:E; simpl; [done|].
    rewrite lookup_insert_ne; [done|]. intros ->. congruence.
  - unfold getPoolRegistryCached. by destruct (registryCache c !! c').
  - by rewrite lookup_delete_ne.
  - done.
  - done.
Qed.

Lemma calls_keepTokens chainId ops c cached :
  Forall (keepsTokens chainId) ops →
  tokenCache c !! chainId = Some cached →
  tokenCache (fold_left call ops c) !! chainId = Some cached.
Proof.
  intros Hk. revert c. induction Hk as [|op ops Hop _ IH]; intros c Hc; simpl; [done|].
  apply IH. by apply call_keepsTokens.
Qed.

(** X20. The token cache is read-through and never refreshes by itself: once
    the tokens of a network have been read, every later read returns that
    same list — whatever storage holds by then and however much time has
    passed — until [invalidateTokenCache] for that network or
    [clearAllCaches] is called; reads and invalidations of other networks
    and of the registry cache do not matter. After an invalidation the next
    read returns what storage holds at that moment. *)
Theorem getTokensByNetworkCached_read_through (storage1 storage2 : Storage)
    (now1 now2 chainId : Z) (ops : list Call) (c c1 : CacheLayer)
    (tokens1 : list Token) :
  getTokensByNetworkCached storage1 now1 chainId c = (tokens1, c1) →
  (Forall (keepsTokens chainId) ops →
   fst (getTokensByNetworkCached storage2 now2 chainId (fold_left call ops c1))
   = tokens1)
  ∧ fst (getTokensByNetworkCached storage2 now2 chainId
           (invalidateTokenCache chainId (fold_left call ops c1)))
    = getTokensByNetwork storage2 chainId.
Proof.
  intros E. split.
  - intros Hk.
    assert (∃ cached, tokenCache c1 !! chainId = Some cached ∧ data cached = tokens1)
      as (cached & Hc & Hd).
    { unfold getTokensByNetworkCached in E.
      destruct (tokenCache c !! chainId) as [cached|] eqn:E'.
      - injection E as <- <-. by exists cached.
      - injection E as <- <-. eexists. simpl. by rewrite lookup_insert_eq. }
    unfold getTokensByNetworkCached at 1.
    by rewrite (calls_keepTokens chainId ops c1 cached Hk Hc).
  - unfold getTokensByNetworkCached at 1, invalidateTokenCache. simpl.
    by rewrite lookup_delete_eq.
Qed.
End CacheLayer.

(** Storage before and after a token is added to network 1. *)
Definition storageBefore : @Storage string unit := mkStorage (λ _, ["WETH"]) (λ _, tt).
Definition storageAfter : @Storage string unit := mkStorage (λ _, ["WETH"; "TKN"]) (λ _, tt).

(** The cache layer once the tokens of network 1 have been read. *)
Definition warmLayer : @CacheLayer string unit :=
  snd (getTokensByNetworkCached storageBefore 1000 1 (mkCacheLayer ∅ ∅)).

Lemma getTokensByNetworkCached_read_through_witness :
  fst (getTokensByNetworkCached storageAfter 9000 1
         (fold_left call [ReadRegistry storageAfter 2000 1; InvalidateTokens 137;
                          InvalidateRegistry 1; ReadTokens storageAfter 3000 137]
            warmLayer))
  = ["WETH"].
Proof.
  assert (getTokensByNetworkCached storageBefore 1000 1 (mkCacheLayer ∅ ∅)
          = (["WETH"], warmLayer)) as E by (vm_compute; reflexivity).
  destruct (getTokensByNetworkCached_read_through storageBefore storageAfter 1000 9000 1
              [ReadRegistry storageAfter 2000 1; InvalidateTokens 137;
               InvalidateRegistry 1; ReadTokens storageAfter 3000 137]
              _ _ _ E) as [H _].
  apply H. repeat constructor; simpl; lia.
Defined.

End Layer.

(** ** Pagination of the token list *)

Module Routes.

Section Pagination.
Context {Token : Type}.

Definition TOKENS_PER_PAGE : nat := 15.

(** [req.query.page ? Math.max(1, Number(req.query.page)) : 1], for a page
    parameter that is absent or spells a whole number. *)
Definition pageOf (query_page : option Z) : Z :=
  match query_page with
  | Some n => Z.max 1 n
  | None => 1%Z
  end.

(** [tokens.slice(startIndex, startIndex + TOKENS_PER_PAGE)]. *)
Definition paginatedTokens (query_page : option Z) (tokens : list Token) : list Token :=
  let page := pageOf query_page in
  let startIndex := (Z.to_nat (page - 1) * TOKENS_PER_PAGE)%nat in
  take TOKENS_PER_PAGE (drop startIndex tokens).

(** [Math.ceil(tokens.length / TOKENS_PER_PAGE)]. *)
Definition totalPages (tokens : list Token) : nat :=
  ((length tokens + (TOKENS_PER_PAGE - 1)) / TOKENS_PER_PAGE)%nat.

Lemma pages_concat (tokens : list Token) (n : nat) :
  concat (map (λ i, paginatedTokens (Some (Z.of_nat (S i))) tokens) (seq 0 n))
  = take (n * TOKENS_PER_PAGE) tokens.
Proof.
  induction n as [|n IH]; [done|].
  rewrite seq_S, map_app, concat_app, IH. simpl concat. rewrite app_nil_r.
  unfold paginatedTokens, pageOf.
  replace (Z.to_nat (Z.max 1 (Z.of_nat (S n)) - 1)) with n by lia.
  rewrite take_take_drop. f_equal. lia.
Qed.

(** X21. The pages of a token list, one after the other, are the list:
    pages [1] to [totalPages] partition it in order; every page before the
    last holds 15 tokens and the last between 1 and 15; a page beyond the
    last is empty; and a page number below 1, like a missing one, gives the
    first page. *)
Theorem paginatedTokens_partition (tokens : list Token) :
  concat (map (λ i, paginatedTokens (Some (Z.of_nat (S i))) tokens)
              (seq 0 (totalPages tokens))) = tokens
  ∧ (∀ page, (1 ≤ page < Z.of_nat (totalPages tokens))%Z →
       length (paginatedTokens (Some page) tokens) = 15%nat)
  ∧ ((0 < totalPages tokens)%nat →
     (1 ≤ length (paginatedTokens (Some (Z.of_nat (totalPages tokens))) tokens) ≤ 15)%nat)
  ∧ (∀ page, (Z.of_nat (totalPages tokens) < page)%Z →
       paginatedTokens (Some page) tokens = [])
  ∧ (∀ page, (page ≤ 1)%Z →
       paginatedTokens (Some page) tokens = paginatedTokens None tokens).
Proof.
  unfold totalPages, TOKENS_PER_PAGE. simpl Nat.sub.
  set (len := length tokens).
  pose proof (Nat.div_mod_eq (len + 14) 15) as Hdm.
  pose proof (Nat.mod_upper_bound (len + 14) 15 ltac:(lia)) as Hm.
  split; [|split; [|split; [|split]]].
  - rewrite pages_concat. apply take_ge. unfold TOKENS_PER_PAGE. fold len. lia.
  - intros page Hp. unfold paginatedTokens, pageOf, TOKENS_PER_PAGE.
    rewrite length_take, length_drop. fold len. lia.
  - intros Hpos. unfold paginatedTokens, pageOf, TOKENS_PER_PAGE.
    rewrite length_take, length_drop. fold len. lia.
  - intros page Hp. unfold paginatedTokens, pageOf, TOKENS_PER_PAGE.
    rewrite drop_ge; [done|]. fold len. lia.
  - intros page Hp. unfold paginatedTokens, pageOf.
    by replace (Z.max 1 page) with 1%Z by lia.
Qed.
End Pagination.

Lemma paginatedTokens_partition_witness :
  length (paginatedTokens (Some 2%Z) (seq 0 40)) = 15%nat
  ∧ paginatedTokens (Some 4%Z) (seq 0 40) = [].
Proof.
  destruct (paginatedTokens_partition (seq 0 40)) as (_ & H15 & _ & Hnone & _).
  split; [apply H15|apply Hnone]; by vm_compute.
Defined.

End Routes.

(** ** The market viewer *)

Module MarketViewer.
Import Registry.
Local Open Scope Z_scope.

(** A token with its pricing routes attached, as [getMarketOverview] holds
    it; [chainId] may be missing. *)
Module Token.
Record t := mk {
  address : string;
  symbol : string;
  name : string;
  decimals : Z;
  chainId : option Z;
  pricingPools : list PricingRoute
}.
End Token.

(** *** [Array.prototype.sort()] and [join('|')] on pool addresses *)

(** The default order of [sort()]: strings by code units. *)
Definition codeUnitLe (a b : string) : Prop := String.leb a b = true.

#[local] Instance codeUnitLe_dec a b : Decision (codeUnitLe a b).
Proof. unfold codeUnitLe. apply _. Defined.

Definition sort (l : list string) : list string := merge_sort codeUnitLe l.

(** [token.chainId || 1]. *)
Definition chainIdOr1 (chainId : option Z) : Z :=
  match chainId with
  | Some c => if c =? 0 then 1 else c
  | None => 1
  end.

(** [`${token.chainId || 1}:${poolAddresses}`]; a number's rendering holds
    no colon, so the string is kept as the pair it renders. *)
Definition poolSetKey (token : Token.t) : Z * string :=
  let poolAddresses :=
    String.concat "|" (sort (map pool (Token.pricingPools token))) in
  (chainIdOr1 (Token.chainId token), poolAddresses).

(** The body of the loop of [deduplicateTokensByPool]; [poolSets] is the
    [Map], in insertion order. *)
Definition keep (poolSets : list ((Z * string) * Token.t)) (token : Token.t) :
    list ((Z * string) * Token.t) :=
  if bool_decide (poolSetKey token ∈ map fst poolSets) then poolSets
  else poolSets ++ [(poolSetKey token, token)].

Definition deduplicateTokensByPool (tokens : list Token.t) : list Token.t :=
  map snd (fold_left keep tokens []).

(** What [handleTokenInterest] reads of a token. *)
Definition interestOf (token : Token.t) : Tracker.Token :=
  Tracker.mkToken (Token.address token) (Token.pricingPools token).

(** The hot-path step of [getMarketOverview]: the tokens are deduplicated
    and the pool controller is told of the interest in what is left. *)
Definition notifyPoolController (now chainId : Z) (tokens : list Token.t)
    (aliveSet : gmap PoolKey Tracker.Pool.t) : gmap PoolKey Tracker.Pool.t :=
  let deduplicatedTokens := deduplicateTokensByPool tokens in
  Tracker.handleTokenInterest now (map interestOf deduplicatedTokens) chainId aliveSet.

(** *** The order of [sort()] *)

Lemma ascii_compare_refl a : Ascii.compare a a = Eq.
Proof. unfold Ascii.compare. apply N.compare_refl. Qed.

Lemma ascii_compare_lt_trans a b c :
  Ascii.compare a b = Lt → Ascii.compare b c = Lt → Ascii.compare a c = Lt.
Proof.
  unfold Ascii.compare. rewrite !N.compare_lt_iff. apply N.lt_trans.
Qed.

Lemma string_compare_refl s : String.compare s s = Eq.
Proof. induction s as [|a s IH]; simpl; [done|]. by rewrite ascii_compare_refl. Qed.

Lemma string_compare_lt_trans s1 s2 s3 :
  String.compare s1 s2 = Lt → String.compare s2 s3 = Lt → String.compare s1 s3 = Lt.
Proof.
  revert s2 s3. induction s1 as [|a s1 IH]; intros [|b s2] [|c s3]; simpl; try done.
  destruct (Ascii.compare a b) eqn:Eab; try done;
    destruct (Ascii.compare b c) eqn:Ebc; try done.
  - apply Ascii.compare_eq_iff in Eab, Ebc. subst. rewrite ascii_compare_refl. apply IH.
  - apply Ascii.compare_eq_iff in Eab. subst. by rewrite Ebc.
  - apply Ascii.compare_eq_iff in Ebc. subst. by rewrite Eab.
  - by rewrite (ascii_compare_lt_trans a b c).
Qed.

#[local] Instance codeUnitLe_total : Total codeUnitLe.
Proof. intros a b. apply String.leb_total. Qed.

#[local] Instance codeUnitLe_antisymm : AntiSymm (=) codeUnitLe.
Proof. intros a b. apply String.leb_antisym. Qed.

#[local] Instance codeUnitLe_trans : Transitive codeUnitLe.
Proof.
  intros a b c. unfold codeUnitLe, String.leb.
  destruct (String.compare a b) eqn:Eab; try done;
    destruct (String.compare b c) eqn:Ebc; try done; intros _ _.
  - apply String.compare_eq_iff in Eab, Ebc. subst. by rewrite string_compare_refl.
  - apply String.compare_eq_iff in Eab. subst. by rewrite Ebc.
  - apply String.compare_eq_iff in Ebc. subst. by rewrite Eab.
  - by rewrite (string_compare_lt_trans a b c).
Qed.

Lemma sort_perm l1 l2 : sort l1 = sort l2 ↔ l1 ≡ₚ l2.
Proof.
  unfold sort. split.
  - intros H. rewrite <- (merge_sort_Permutation codeUnitLe l1), H.
    apply merge_sort_Permutation.
  - intros H. apply (Sorted_unique codeUnitLe); try apply Sorted_merge_sort; try apply _.
    by rewrite !merge_sort_Permutation.
Qed.

(** *** When [join('|')] can be read back *)

Fixpoint barFree (s : string) : bool :=
  match s with
  | EmptyString => true
  | String c s' => negb (Ascii.eqb c "|") && barFree s'
  end.

(** A pool address as they are: not empty, and with no ['|'] in it. *)
Definition plain (s : string) : Prop := s ≠ "" ∧ barFree s = true.

(** What follows the first element in a joined string. *)
Definition joinedRest (l : list string) : string :=
  match l with
  | [] => ""
  | _ :: _ => String "|" (String.concat "|" l)
  end.

Lemma app_String c s r : String c s +:+ r = String c (s +:+ r).
Proof. reflexivity. Qed.

Lemma app_empty r : "" +:+ r = r.
Proof. reflexivity. Qed.

Lemma concat_cons s l : String.concat "|" (s :: l) = s +:+ joinedRest l.
Proof.
  destruct l; simpl; [|done]. induction s as [|c s IH]; [done|].
  rewrite app_String. by f_equal.
Qed.

Lemma app_bar_inj s s' r r' :
  barFree s = true → barFree s' = true →
  s +:+ joinedRest r = s' +:+ joinedRest r' →
  s = s' ∧ joinedRest r = joinedRest r'.
Proof.
  revert s'. induction s as [|c s IH]; intros [|c' s'] Hs Hs';
    rewrite ?app_String, ?app_empty; simpl in Hs, Hs'.
  - done.
  - destruct r; simpl; [done|]. intros [= <- _].
    by rewrite Ascii.eqb_refl in Hs'.
  - destruct r'; simpl; [done|]. intros [= -> _].
    by rewrite Ascii.eqb_refl in Hs.
  - apply andb_true_iff in Hs as [_ Hs]. apply andb_true_iff in Hs' as [_ Hs'].
    intros [= -> H]. destruct (IH s' Hs Hs' H) as [-> ?]. done.
Qed.

Lemma concat_inj l l' :
  Forall plain l → Forall plain l' →
  String.concat "|" l = String.concat "|" l' → l = l'.
Proof.
  intros Hl. revert l'. induction Hl as [|s l [Hne Hs] Hl IH]; intros l' Hl'.
  - destruct Hl' as [|s' l' [Hne' _] _]; [done|].
    rewrite concat_cons. destruct s'; [done|]. by rewrite app_String.
  - destruct Hl' as [|s' l' [Hne' Hs'] Hl']; rewrite !concat_cons.
    + destruct s; [done|]. by rewrite app_String.
    + intros H. apply app_bar_inj in H as [-> H]; [|done..]. f_equal.
      destruct l as [|x l], l' as [|x' l']; simpl in H; try done.
      injection H as H. by apply IH.
Qed.

(** Sorted and joined, plain addresses can be told apart again. *)
Lemma joined_sort_inj l1 l2 :
  Forall plain l1 → Forall plain l2 →
  String.concat "|" (sort l1) = String.concat "|" (sort l2) → l1 ≡ₚ l2.
Proof.
  intros H1 H2 H. apply sort_perm. apply concat_inj; [| |done].
  - unfold sort. by rewrite merge_sort_Permutation.
  - unfold sort. by rewrite merge_sort_Permutation.
Qed.

(** *** Deduplication *)

Lemma keep_fold_fresh tokens poolSets :
  NoDup (map poolSetKey tokens) →
  (∀ t, t ∈ tokens → poolSetKey t ∉ map fst poolSets) →
  fold_left keep tokens poolSets = poolSets ++ map (λ t, (poolSetKey t, t)) tokens.
Proof.
  revert poolSets. induction tokens as [|t tokens IH]; intros poolSets Hnd Hfresh; simpl.
  - by rewrite app_nil_r.
  - apply NoDup_cons in Hnd as [Ht Hnd]. unfold keep at 2.
    rewrite bool_decide_eq_false_2 by (apply Hfresh; by left).
    rewrite IH; [by rewrite <- app_assoc|done|].
    intros t' Ht'. rewrite map_app. simpl. intros [Hin | Hin%list_elem_of_singleton]%elem_of_app.
    + apply (Hfresh t'); [by right|done].
    + apply Ht. rewrite <- Hin. by apply list_elem_of_fmap_2.
Qed.

(** What the loop maintains. *)
Record Kept (tokens : list Token.t) (poolSets : list ((Z * string) * Token.t)) : Prop := {
  kept_keys : map fst poolSets = map poolSetKey (map snd poolSets);
  kept_nodup : NoDup (map fst poolSets);
  kept_sublist : sublist (map snd poolSets) tokens;
  kept_all : ∀ t, t ∈ tokens → poolSetKey t ∈ map fst poolSets;
  kept_first : ∀ i t, tokens !! i = Some t →
    (∀ j t', (j < i)%nat → tokens !! j = Some t' → poolSetKey t' ≠ poolSetKey t) →
    t ∈ map snd poolSets
}.

Lemma Kept_fold tokens : Kept tokens (fold_left keep tokens []).
Proof.
  induction tokens as [|t tokens IH] using rev_ind.
  - split; simpl; [done|constructor|constructor|by intros t ?%elem_of_nil|done].
  - rewrite fold_left_app. cbn [fold_left].
    remember (fold_left keep tokens []) as poolSets eqn:E. clear E.
    destruct IH as [Hk Hnd Hsub Hall Hfirst].
    unfold keep. case_bool_decide as Hin.
    + split; try done.
      * by apply sublist_inserts_r.
      * intros t' [Ht' | ->%list_elem_of_singleton]%elem_of_app; [by apply Hall|done].
      * intros i t' Hi Hprev.
        destruct (decide (i < length tokens)%nat) as [Hlt|Hge].
        -- rewrite lookup_app_l in Hi by done. apply (Hfirst i t' Hi).
           intros j t'' Hj Hj'. apply (Hprev j t'' Hj).
           by rewrite lookup_app_l by lia.
        -- exfalso. rewrite lookup_app_r in Hi by lia.
           apply list_lookup_singleton_Some in Hi as [Hi <-].
           rewrite Hk in Hin. apply list_elem_of_fmap in Hin as (t'' & Heq & Hin).
           apply (λ H, elem_of_sublist _ _ _ H Hsub) in Hin.
           apply list_elem_of_lookup in Hin as [j Hj].
           apply (Hprev j t''); [|by rewrite lookup_app_l by (by eapply lookup_lt_Some)|done].
           apply lookup_lt_Some in Hj. lia.
    + split.
      * rewrite !map_app. simpl. by rewrite Hk.
      * rewrite map_app. simpl. apply NoDup_app. split; [done|]. split.
        -- intros k Hk' ->%list_elem_of_singleton. done.
        -- apply NoDup_singleton.
      * rewrite map_app. simpl. by apply sublist_app.
      * rewrite map_app. simpl.
        intros t' [Ht' | ->%list_elem_of_singleton]%elem_of_app; apply elem_of_app.
        -- left. by apply Hall.
        -- right. by apply list_elem_of_singleton.
      * intros i t' Hi Hprev. rewrite map_app. simpl. apply elem_of_app.
        destruct (decide (i < length tokens)%nat) as [Hlt|Hge].
        -- left. rewrite lookup_app_l in Hi by done. apply (Hfirst i t' Hi).
           intros j t'' Hj Hj'. apply (Hprev j t'' Hj).
           by rewrite lookup_app_l by lia.
        -- right. rewrite lookup_app_r in Hi by lia.
           apply list_lookup_singleton_Some in Hi as [Hi <-].
           by apply list_elem_of_singleton.
Qed.

(** X22. [deduplicateTokensByPool] selects tokens without reordering them;
    no two selected tokens have the same pool-set key; every token of the
    input has its key represented; the token selected for a key is the
    first of the input with that key; and deduplicating again changes
    nothing. *)
Theorem deduplicateTokensByPool_first_of_each (tokens : list Token.t) :
  sublist (deduplicateTokensByPool tokens) tokens
  ∧ NoDup (map poolSetKey (deduplicateTokensByPool tokens))
  ∧ (∀ t, t ∈ tokens →
       ∃ t', t' ∈ deduplicateTokensByPool tokens ∧ poolSetKey t' = poolSetKey t)
  ∧ (∀ i t, tokens !! i = Some t →
       (∀ j t', (j < i)%nat → tokens !! j = Some t' → poolSetKey t' ≠ poolSetKey t) →
       t ∈ deduplicateTokensByPool tokens)
  ∧ deduplicateTokensByPool (deduplicateTokensByPool tokens)
    = deduplicateTokensByPool tokens.
Proof.
  unfold deduplicateTokensByPool at 1 2 3 4 6 7.
  destruct (Kept_fold tokens) as [Hk Hnd Hsub Hall Hfirst].
  split; [done|]. split; [by rewrite <- Hk|]. split; [|split; [done|]].
  - intros t Ht. specialize (Hall t Ht). rewrite Hk in Hall.
    apply list_elem_of_fmap in Hall as (t' & Heq & Hin). by exists t'.
  - unfold deduplicateTokensByPool.
    rewrite keep_fold_fresh; simpl.
    + rewrite map_map. simpl. by rewrite map_id.
    + by rewrite <- Hk.
    + by intros t _ ?%elem_of_nil.
Qed.


(** X23. Which tokens are merged. For pool addresses as they are (not
    empty, no ['|'] inside), two tokens get the same pool-set key exactly
    when they are on the same network — a missing or zero [chainId] counting
    as 1 — and their routes cross the same pools the same number of times,
    in whatever order; the bases of the routes play no part. *)
Theorem poolSetKey_same_pools (token1 token2 : Token.t) :
  Forall plain (map pool (Token.pricingPools token1)) →
  Forall plain (map pool (Token.pricingPools token2)) →
  poolSetKey token1 = poolSetKey token2
  ↔ chainIdOr1 (Token.chainId token1) = chainIdOr1 (Token.chainId token2)
    ∧ map pool (Token.pricingPools token1) ≡ₚ map pool (Token.pricingPools token2).
Proof.
  intros H1 H2. unfold poolSetKey. split.
  - intros [= Hc Hp]. split; [done|]. by apply joined_sort_inj.
  - intros [-> Hp]. f_equal. f_equal. by apply sort_perm.
Qed.

(** *** Deduplication before the pool controller *)

Lemma keep_fold_same token rest :
  (∀ t, t ∈ rest → poolSetKey t = poolSetKey token) →
  fold_left keep rest [(poolSetKey token, token)] = [(poolSetKey token, token)].
Proof.
  induction rest as [|t rest IH]; intros H; simpl; [done|].
  unfold keep at 2. rewrite bool_decide_eq_true_2.
  - apply IH. intros t' Ht'. apply H. by right.
  - rewrite (H t) by (by left). simpl. by left.
Qed.

Lemma interest_lookup_hits now tokens chainId aliveSet k :
  Tracker.handleTokenInterest now tokens chainId aliveSet !! k
  = Lifecycle.referenced now chainId k
      (Tracker.hits k chainId (tokens ≫= Tracker.pricingPools)) (aliveSet !! k).
Proof.
  unfold Tracker.handleTokenInterest.
  by rewrite Tracker.fold_left_nested, Lifecycle.touches_lookup.
Qed.

Lemma hits_pos k chainId routes route :
  route ∈ routes → poolKey chainId (pool route) = k →
  (0 < Tracker.hits k chainId routes)%nat.
Proof.
  intros Hin Hk. unfold Tracker.hits.
  assert (route ∈ filter (λ route, poolKey chainId (pool route) = k) routes) as H.
  { by apply list_elem_of_filter. }
  destruct (filter _ routes); [by apply elem_of_nil in H|simpl; lia].
Qed.

Lemma hits_zero k chainId routes :
  (∀ route, route ∈ routes → poolKey chainId (pool route) ≠ k) →
  Tracker.hits k chainId routes = 0%nat.
Proof.
  intros H. unfold Tracker.hits.
  destruct (filter _ routes) as [|route l] eqn:E; [done|].
  assert (route ∈ filter (λ route, poolKey chainId (pool route) = k) routes) as Hin.
  { rewrite E. by left. }
  apply list_elem_of_filter in Hin as [Hk Hin]. by destruct (H route Hin).
Qed.

(** X24. Deduplication before [handleTokenInterest] loses no pool and
    invents none. With pool addresses as they are, every pool on a route of
    any token given to [getMarketOverview] is tracked once the pool
    controller has been notified, also when the token itself was dropped as
    a duplicate; a pool on no route is left as it was; and tokens that all
    have the pool set of the first are registered as that one token, so a
    shared pool is counted once and not once per token. *)
Theorem notifyPoolController_tracks (now chainId : Z) (tokens : list Token.t)
    (aliveSet : gmap PoolKey Tracker.Pool.t) :
  (∀ token route, token ∈ tokens → route ∈ Token.pricingPools token →
     plain (pool route)) →
  (∀ token route, token ∈ tokens → route ∈ Token.pricingPools token →
     is_Some (notifyPoolController now chainId tokens aliveSet
              !! poolKey chainId (pool route)))
  ∧ (∀ k, (∀ token route, token ∈ tokens → route ∈ Token.pricingPools token →
             poolKey chainId (pool route) ≠ k) →
       notifyPoolController now chainId tokens aliveSet !! k = aliveSet !! k)
  ∧ (∀ token rest, tokens = token :: rest →
       (∀ t, t ∈ rest → poolSetKey t = poolSetKey token) →
       notifyPoolController now chainId tokens aliveSet
       = Tracker.handleTokenInterest now [interestOf token] chainId aliveSet).
Proof.
  intros Hplain. unfold notifyPoolController, deduplicateTokensByPool.
  destruct (Kept_fold tokens) as [Hk Hnd Hsub Hall Hfirst].
  assert (∀ token, Forall plain (map pool (Token.pricingPools token)) ↔
            ∀ route, route ∈ Token.pricingPools token → plain (pool route)) as Hfa.
  { intros token. rewrite Forall_fmap, Forall_forall. done. }
  split; [|split].
  - intros token route Htoken Hroute.
    specialize (Hall token Htoken). rewrite Hk in Hall.
    apply list_elem_of_fmap in Hall as (token' & Heq & Hin').
    pose proof (elem_of_sublist _ _ _ Hin' Hsub) as Htoken'.
    injection Heq as _ Heq.
    apply joined_sort_inj in Heq as Hperm; [|apply Hfa; eauto|apply Hfa; eauto].
    assert (pool route ∈ map pool (Token.pricingPools token')) as Hp.
    { rewrite <- Hperm. by apply list_elem_of_fmap_2. }
    apply list_elem_of_fmap in Hp as (route' & Hpool & Hroute').
    rewrite interest_lookup_hits.
    assert (0 < Tracker.hits (poolKey chainId (pool route)) chainId
                  (map interestOf (map snd (fold_left keep tokens []))
                   ≫= Tracker.pricingPools))%nat as Hpos.
    { apply (hits_pos _ _ _ route'); [|by rewrite Hpool].
      apply list_elem_of_bind. exists (interestOf token'). split; [done|].
      by apply list_elem_of_fmap_2. }
    destruct (Tracker.hits _ _ _) as [|n]; [lia|]. simpl. eauto.
  - intros k Hk'. rewrite interest_lookup_hits, hits_zero; [done|].
    intros route (it & Hroute & (token & -> & Htoken)%list_elem_of_fmap)%list_elem_of_bind.
    apply (Hk' token route); [|done]. by apply (elem_of_sublist _ _ _ Htoken Hsub).
  - intros token rest -> Hsame. simpl. unfold keep at 2. simpl.
    by rewrite keep_fold_same.
Qed.

(** *** Market data of one token *)

Inductive DataSource := multicall | insufficient_data.

Module TokenMarketData.
Record t := mk {
  address : string;
  symbol : string;
  name : string;
  decimals : Z;
  chainId : Z;
  price : float;
  priceChange24h : float;
  liquidity : float;
  volume24h : float;
  holders : float;
  dataSource : DataSource;
  timestamp : Z;
  cachedUntil : Z
}.
End TokenMarketData.

(** An entry of the service's [cache]. *)
Record CacheRecord := mkCacheRecord {
  data : TokenMarketData.t;
  expireAt : Z
}.

(** The cache, under [`${tokenAddress}-${chainId}`] kept as the pair. *)
Abbreviation MarketCache := (gmap (string * Z) CacheRecord).

(** What a call gives: the data, or the error thrown for a token that
    storage does not list. *)
Inductive Fetched :=
  | Data (marketData : TokenMarketData.t)
  | NotFound.

(** [price || 0]: [null], a zero and [NaN] all give 0. *)
Definition priceOr0 (price : option float) : float :=
  match price with
  | Some p => if (p =? 0)%float || PrimFloat.is_nan p then 0%float else p
  | None => 0%float
  end.

(** [price !== null && price > 0]. *)
Definition hasValidPrice (price : option float) : bool :=
  match price with
  | Some p => (0 <? p)%float
  | None => false
  end.

Section GetTokenMarketData.
Variable DEFAULT_CACHE_TTL : Z.

Definition setCacheEntry (now : Z) (key : string * Z) (marketData : TokenMarketData.t)
    (cache : MarketCache) : MarketCache :=
  <[key := mkCacheRecord marketData (now + DEFAULT_CACHE_TTL)]> cache.

(** [getTokenMarketData]; [tokens] is what storage lists for the network and
    [price] what [computeSpotPrice] answers at the time of the call, and the
    clock is read as one instant [now]. *)
Definition getTokenMarketData (now : Z) (tokens : list Token.t) (price : option float)
    (tokenAddress : string) (chainId : Z) (forceRefresh : bool)
    (cache : MarketCache) : Fetched * MarketCache :=
  let cacheKey := (tokenAddress, chainId) in
  let cached :=
    if forceRefresh then None
    else match cache !! cacheKey with
         | Some cached => if (now <? expireAt cached) then Some cached else None
         | None => None
         end in
  match cached with
  | Some cached => (Data (data cached), cache)
  | None =>
    match List.find (λ t, String.eqb (Pricing.toLowerCase (Token.address t))
                                     (Pricing.toLowerCase tokenAddress)) tokens with
    | None => (NotFound, cache)
    | Some token =>
      let marketData :=
        TokenMarketData.mk tokenAddress (Token.symbol token) (Token.name token)
          (Token.decimals token) chainId (priceOr0 price) 0 0 0 0
          (if hasValidPrice price then multicall else insufficient_data)
          now (now + (if hasValidPrice price then DEFAULT_CACHE_TTL else 0)) in
      (Data marketData,
       if hasValidPrice price then setCacheEntry now cacheKey marketData cache
       else cache)
    end
  end.

(** Data whose source tells whether it carries a price. *)
Definition Attributed (marketData : TokenMarketData.t) : Prop :=
  (TokenMarketData.dataSource marketData = multicall
   ↔ (0 <? TokenMarketData.price marketData)%float = true)
  ∧ PrimFloat.is_nan (TokenMarketData.price marketData) = false.

Lemma positive_truthy (p : float) :
  (0 <? p)%float = true → ((p =? 0)%float || PrimFloat.is_nan p) = false.
Proof.
  unfold PrimFloat.is_nan. rewrite FloatAxioms.ltb_spec, !FloatAxioms.eqb_spec.
  change (Prim2SF 0%float) with (S754_zero false).
  destruct (Prim2SF p) as [[]|[]| |[] m e]; cbn; try discriminate; intros _.
  - reflexivity.
  - by rewrite Z.compare_refl, Pos.compare_cont_refl.
Qed.

Lemma falsy_not_positive (p : float) :
  ((p =? 0)%float || PrimFloat.is_nan p) = true → (0 <? p)%float = false.
Proof.
  intros H. destruct (0 <? p)%float eqn:E; [|done].
  apply positive_truthy in E. congruence.
Qed.

Lemma fresh_Attributed price marketData :
  TokenMarketData.price marketData = priceOr0 price →
  TokenMarketData.dataSource marketData
  = (if hasValidPrice price then multicall else insufficient_data) →
  Attributed marketData.
Proof.
  intros Hp Hs. unfold Attributed. rewrite Hp, Hs.
  destruct price as [p|]; simpl.
  - destruct ((p =? 0)%float || PrimFloat.is_nan p) eqn:E.
    + rewrite (falsy_not_positive p E). split; [|reflexivity].
      split; [discriminate|]. intros H. vm_compute in H. discriminate.
    + apply orb_false_iff in E as [_ E]. split; [|done].
      destruct (0 <? p)%float; split; (done || discriminate).
  - split; [|reflexivity]. split; [discriminate|]. intros H. vm_compute in H. discriminate.
Qed.

(** Data that carries a price. *)
Definition Priced (marketData : TokenMarketData.t) : Prop :=
  TokenMarketData.dataSource marketData = multicall
  ∧ (0 <? TokenMarketData.price marketData)%float = true.

Lemma Priced_Attributed marketData : Priced marketData → Attributed marketData.
Proof.
  intros [Hs Hp]. split; [by rewrite Hs, Hp|].
  apply positive_truthy in Hp. by apply orb_false_iff in Hp as [_ Hp].
Qed.

(** X25. The market data served for a token says where its price comes
    from: starting from a cache that holds only priced data (the empty cache
    does), every answer has source [multicall] exactly when its price is
    positive, and its price is never [NaN] — a [null], zero, negative or
    [NaN] price from the pricing engine is served as insufficient data.
    Only priced data is put in the cache, so an insufficient answer leaves
    the cache as it was and the next call computes again; a token that
    storage does not list is an error and changes nothing. *)
Theorem getTokenMarketData_attributed (now : Z) (tokens : list Token.t)
    (price : option float) (tokenAddress : string) (chainId : Z) (forceRefresh : bool)
    (cache cache' : MarketCache) (fetched : Fetched) :
  (∀ key cached, cache !! key = Some cached → Priced (data cached)) →
  getTokenMarketData now tokens price tokenAddress chainId forceRefresh cache
  = (fetched, cache') →
  (∀ key cached, cache' !! key = Some cached → Priced (data cached))
  ∧ match fetched with
    | Data marketData =>
      Attributed marketData
      ∧ (TokenMarketData.dataSource marketData = insufficient_data → cache' = cache)
    | NotFound => cache' = cache
    end.
Proof.
  intros Hcache. unfold getTokenMarketData.
  set (cached := if forceRefresh then None else _).
  assert (∀ c, cached = Some c → cache !! (tokenAddress, chainId) = Some c) as Hhit.
  { subst cached. intros c. destruct forceRefresh; [done|].
    destruct (cache !! (tokenAddress, chainId)) as [c'|]; [|done].
    by destruct (now <? expireAt c'). }
  destruct cached as [c|].
  - intros [= <- <-]. split; [done|].
    pose proof (Hcache _ _ (Hhit c eq_refl)) as Hp.
    split; [by apply Priced_Attributed|]. destruct Hp as [Hs _]. rewrite Hs. discriminate.
  - destruct (List.find _ tokens) as [token|]; [|by intros [= <- <-]].
    destruct (hasValidPrice price) eqn:Hv; intros [= <- <-].
    + split; [|split; [|discriminate]].
      * intros key c. unfold setCacheEntry. rewrite lookup_insert.
        case_decide as Hkey; [|apply Hcache]. intros [= <-]. simpl. split; [done|].
        simpl. destruct price as [p|]; [|done]. simpl in Hv.
        simpl. by rewrite (positive_truthy p Hv).
      * apply (fresh_Attributed price); simpl; by rewrite ?Hv.
    + split; [done|]. split; [|done].
      apply (fresh_Attributed price); simpl; by rewrite ?Hv.
Qed.
End GetTokenMarketData.

(** Three listed tokens: [tokenA] and [tokenB] cross the same two pools,
    listed in opposite orders and with different bases; [tokenC] crosses one
    of them only. *)
Definition tokenA : Token.t :=
  Token.mk "0xA" "AAA" "Token A" 18 (Some 1)
           [mkRoute "0xpool1" "0xweth"; mkRoute "0xpool2" "0xusdc"].
Definition tokenB : Token.t :=
  Token.mk "0xB" "BBB" "Token B" 18 None
           [mkRoute "0xpool2" "0xdai"; mkRoute "0xpool1" "0xweth"].
Definition tokenC : Token.t :=
  Token.mk "0xC" "CCC" "Token C" 6 (Some 1) [mkRoute "0xpool2" "0xusdc"].

Lemma deduplicateTokensByPool_first_of_each_witness :
  deduplicateTokensByPool [tokenA; tokenB; tokenC; tokenA] = [tokenA; tokenC]
  ∧ tokenC ∈ deduplicateTokensByPool [tokenA; tokenB; tokenC; tokenA].
Proof.
  split; [vm_compute; reflexivity|].
  destruct (deduplicateTokensByPool_first_of_each [tokenA; tokenB; tokenC; tokenA])
    as (_ & _ & _ & H & _).
  apply (H 2%nat tokenC); [reflexivity|].
  intros j t' Hlt Hlook. destruct j as [|[|j]]; [| |lia];
    injection Hlook as <-; by vm_compute.
Defined.

Lemma plain_pools_tokenA : Forall plain (map pool (Token.pricingPools tokenA)).
Proof. repeat constructor; discriminate. Qed.

Lemma plain_pools_tokenB : Forall plain (map pool (Token.pricingPools tokenB)).
Proof. repeat constructor; discriminate. Qed.

Lemma poolSetKey_same_pools_witness :
  poolSetKey tokenA = poolSetKey tokenB.
Proof.
  apply (poolSetKey_same_pools tokenA tokenB plain_pools_tokenA plain_pools_tokenB).
  split; [reflexivity|]. apply Permutation_swap.
Defined.

Lemma notifyPoolController_tracks_witness :
  is_Some (notifyPoolController 1000 1 [tokenA; tokenB; tokenC] ∅ !! poolKey 1 "0xpool1")
  ∧ notifyPoolController 1000 1 [tokenA; tokenB] ∅
    = Tracker.handleTokenInterest 1000 [interestOf tokenA] 1 ∅.
Proof.
  assert (∀ tokens, tokens ⊆ [tokenA; tokenB; tokenC] →
            ∀ token route, token ∈ tokens → route ∈ Token.pricingPools token →
              plain (pool route)) as Hplain.
  { intros tokens Hsub token route Htoken%Hsub Hroute.
    repeat (apply elem_of_cons in Htoken as [-> | Htoken]);
      [| | |by apply elem_of_nil in Htoken];
      repeat (apply elem_of_cons in Hroute as [-> | Hroute]);
      try (by apply elem_of_nil in Hroute); split; (discriminate || reflexivity). }
  split.
  - destruct (notifyPoolController_tracks 1000 1 [tokenA; tokenB; tokenC] ∅
                (Hplain [tokenA; tokenB; tokenC] ltac:(done))) as (H & _ & _).
    apply (H tokenB (mkRoute "0xpool1" "0xweth")); set_solver.
  - destruct (notifyPoolController_tracks 1000 1 [tokenA; tokenB] ∅
                (Hplain [tokenA; tokenB] ltac:(set_solver))) as (_ & _ & H).
    apply (H tokenA [tokenB] eq_refl).
    intros t ->%list_elem_of_singleton. vm_compute. reflexivity.
Defined.

Lemma getTokenMarketData_attributed_witness :
  Attributed (TokenMarketData.mk "0xc" "CCC" "Token C" 6 1 0 0 0 0 0
                                 insufficient_data 5000 5000).
Proof.
  destruct (getTokenMarketData_attributed 60000 5000 [tokenA; tokenC] (Some nan) "0xc" 1
              false ∅ ∅
              (Data (TokenMarketData.mk "0xc" "CCC" "Token C" 6 1 0 0 0 0 0
                                        insufficient_data 5000 5000)))
    as [_ [H _]]; [by intros key cached ?%lookup_empty_Some|reflexivity|exact H].
Defined.

End MarketViewer.
